(** * Delivery checker: a shallow embedding of [deliverychecker.ts]

    The program validates pickup/dropoff requests against a truck route and,
    when every request can be served, lists the driver's stops.

    Addresses are the integers of the data model, taken as [Z]; on integers
    of the safe range of JavaScript numbers (below 2^53 in magnitude) the
    operations used by the program ([===], [-], [+ 1], [+ 2], [indexOf],
    template interpolation) are the exact integer operations written here.
    Past that range the program's numbers round and print otherwise, so the
    statements that rest on [+ 1], [+ 2] or on the text of a message carry the
    hypothesis [safeAddress] on the addresses involved.
    [undefined] is [None] wherever the program can meet it, and a thrown
    exception is the [Throw] completion. *)

From Stdlib Require Import String DecimalString.
From Stdlib Require Import ZArith List Bool Lia.
From Stdlib Require Import Permutation Sorted.
Import ListNotations.

Local Open Scope Z_scope.

(** ** Completions: a value, or a thrown exception *)

Inductive Exception : Set :=
| SyntaxError
| TypeError.

Inductive Completion (A : Type) : Type :=
| Normal (a : A)
| Throw (e : Exception).

Arguments Normal {A} a.
Arguments Throw {A} e.

Definition bind {A B : Type} (c : Completion A) (k : A -> Completion B)
  : Completion B :=
  match c with
  | Normal a => k a
  | Throw e => Throw e
  end.

Notation "x <- c ;; k" := (bind c (fun x => k))
  (at level 61, c at next level, right associativity).

(** ** Data model *)

Record Parcel : Set := { pickupAddress : Z; dropoffAddress : Z }.

Definition Deliveries := list Parcel.

Definition TruckPath := list Z.

(** [action: 'pickup' | 'dropoff' | null]; [null] is [None]. *)
Inductive Action : Set :=
| pickup
| dropoff.

Record Step : Set := { address : Z; action : option Action }.

Definition Steps := list Step.

Inductive ErrorCode : Set :=
| delivery_address_not_in_path
| delivery_dropoff_before_pickup
| dropoff_address_not_in_path
| unknown_error.

Record Error : Set := { error_code : ErrorCode; error_message : string }.

(** The [steps] of a success are declared [Steps], but the array is filled
    with results of [Array.prototype.find], so an entry can be [undefined]. *)
Inductive Output : Set :=
| success (steps : list (option Step))
| error (e : Error).

(** The tuple [[true, [Step, Step]] | [false, Error]]. *)
Inductive MaybeSteps : Set :=
| Deliverable (pair : Step * Step)
| Undeliverable (e : Error).

(** [tuple[0]] *)
Definition tag (tuple : MaybeSteps) : bool :=
  match tuple with
  | Deliverable _ => true
  | Undeliverable _ => false
  end.

(** ** Built-ins of the language *)

(** [Array.prototype.indexOf]: index of the first element strictly equal to
    [x], or [-1]. *)
Fixpoint indexOf_from (l : list Z) (x : Z) (i : Z) : Z :=
  match l with
  | [] => -1
  | y :: r => if y =? x then i else indexOf_from r x (i + 1)
  end.

Definition indexOf (l : list Z) (x : Z) : Z := indexOf_from l x 0.

(** [`${n}`] for an integer [n] of the safe range: its decimal digits, with
    a leading [-] when negative.  (Past 2^53 the program's text differs: digits
    are lost, and from 10^21 the exponent form is printed; the statements on
    messages are for addresses within [safeAddress].) *)
Definition numberToString (n : Z) : string :=
  NilZero.string_of_int (Z.to_int n).

(** [Array.prototype.find] is [List.find]; [every] is [forallb]. *)

(** [Array.prototype.reduce] with an initial value, the callback receiving the
    accumulator, the element and its index. *)
Fixpoint reduce_from {A B : Type} (f : B -> A -> nat -> Completion B)
  (l : list A) (i : nat) (acc : B) : Completion B :=
  match l with
  | [] => Normal acc
  | x :: r => acc' <- f acc x i ;; reduce_from f r (S i) acc'
  end.

Definition reduce {A B : Type} (f : B -> A -> nat -> Completion B)
  (l : list A) (init : B) : Completion B :=
  reduce_from f l 0%nat init.

(** [Array.prototype.map] with the callback receiving element and index. *)
Fixpoint mapi_from {A B : Type} (f : A -> nat -> B) (l : list A) (i : nat)
  : list B :=
  match l with
  | [] => []
  | x :: r => f x i :: mapi_from f r (S i)
  end.

Definition mapi {A B : Type} (f : A -> nat -> B) (l : list A) : list B :=
  mapi_from f l 0%nat.

(** [Array.prototype.sort] with the comparator [(a, b) => a.address - b.address].
    The sort is stable, and the comparator is a consistent total preorder, so
    the result is the one stable arrangement by ascending address whatever the
    engine's algorithm; it is computed here by insertion, an element going after
    the elements of equal address already placed. *)
Fixpoint sort_insert (s : Step) (l : list Step) : list Step :=
  match l with
  | [] => [s]
  | h :: r =>
      if address s - address h <? 0 then s :: h :: r
      else h :: sort_insert s r
  end.

Definition sortByAddress (l : list Step) : list Step :=
  fold_left (fun acc s => sort_insert s acc) l [].

(** ** The feasibility check of one parcel *)

Definition parcelCanBeDelivered (parcel : Parcel) (truckPath : TruckPath)
  : MaybeSteps :=
  let pickupIndex := indexOf truckPath (pickupAddress parcel) in
  let dropoffIndex := indexOf truckPath (dropoffAddress parcel) in
  if pickupIndex =? -1 then
    Undeliverable
      {| error_code := delivery_address_not_in_path;
         error_message :=
           ("Delivery address " ++ numberToString (pickupAddress parcel)
            ++ " not in path")%string |}
  else if dropoffIndex =? -1 then
    Undeliverable
      {| error_code := dropoff_address_not_in_path;
         error_message :=
           ("Dropoff address " ++ numberToString (dropoffAddress parcel)
            ++ " not in path")%string |}
  else if dropoffIndex <? pickupIndex then
    Undeliverable
      {| error_code := delivery_dropoff_before_pickup;
         error_message :=
           ("Dropoff address " ++ numberToString (dropoffAddress parcel)
            ++ " before pickup address "
            ++ numberToString (pickupAddress parcel))%string |}
  else
    Deliverable
      ({| address := pickupAddress parcel; action := Some pickup |},
       {| address := dropoffAddress parcel; action := Some dropoff |}).

Definition parcelsAreAllDeliverable (maybeSteps : list MaybeSteps) : bool :=
  forallb (fun tuple => Bool.eqb (tag tuple) true) maybeSteps.

(** ** The aggregator *)

(** [tuple[1]] of a tuple narrowed to [[true, [Step, Step]]], already spread as
    [flat] does.  The guard [parcelsAreAllDeliverable] excludes the other
    variant where this is used. *)
Definition pairSteps (tuple : MaybeSteps) : list Step :=
  match tuple with
  | Deliverable (p, d) => [p; d]
  | Undeliverable _ => []
  end.

(** The callback of [steps.reduce].  [steps[i + 1]] is [undefined] past the
    end, where reading [.address] throws.  [step.address + 1] and
    [step.address + 2] are the exact sums, as the program computes them on
    addresses within [safeAddress] (past 2^53 its sums round). *)
Definition addMissing (steps : list Step) (acc : list Step) (step : Step)
  (i : nat) : Completion (list Step) :=
  if Nat.eqb i (length steps - 1) then Normal (acc ++ [step])
  else
    match nth_error steps (i + 1) with
    | None => Throw TypeError
    | Some nextStep =>
        let isStopMissed := address nextStep =? address step + 2 in
        if isStopMissed then
          Normal (acc ++ [step; {| address := address step + 1;
                                   action := None |}])
        else Normal (acc ++ [step])
    end.

(** [step.address === trackId], with [trackId] possibly [undefined]. *)
Definition addressIs (trackId : option Z) (step : Step) : bool :=
  match trackId with
  | Some a => address step =? a
  | None => false
  end.

Definition reorder (fullSteps : list Step) (truckPath : TruckPath)
  : list (option Step) :=
  mapi (fun _ i =>
          let trackId := nth_error truckPath i in
          find (addressIs trackId) fullSteps)
       fullSteps.

Definition generateTruckSteps (deliveries : Deliveries) (truckPath : TruckPath)
  : Completion Output :=
  let maybeSteps :=
    map (fun parcel => parcelCanBeDelivered parcel truckPath) deliveries in
  if negb (parcelsAreAllDeliverable maybeSteps) then
    match find (fun tuple => Bool.eqb (tag tuple) false) maybeSteps with
    | Some (Undeliverable e) => Normal (error e)
    | Some (Deliverable _) =>
        (* never found: the predicate selects [tuple[0] === false] only
           (lemma [first_failure]) *)
        Throw TypeError
    | None =>
        Normal (error {| error_code := unknown_error;
                         error_message := "Unknown error" |})
    end
  else
    let flatSteps := flat_map pairSteps maybeSteps in
    let steps := sortByAddress flatSteps in
    fullSteps <- reduce (addMissing steps) steps [] ;;
    Normal (success (reorder fullSteps truckPath)).

(** ** The entry point *)

(** A value decoded by [JSON.parse].  Numbers are the integers of the data
    model; an object lists its members once per key. *)
#[local] Unset Elimination Schemes.
Inductive JSON : Set :=
| JNull
| JBool (b : bool)
| JNumber (n : Z)
| JString (s : string)
| JArray (elements : list JSON)
| JObject (members : list (string * JSON)).
#[local] Set Elimination Schemes.

(** A value read from a decoded structure: a [JSON] value or [undefined]. *)
Definition JSValue := option JSON.

(** [typeof v === 'number'] *)
Definition isNumber (v : JSValue) : bool :=
  match v with
  | Some (JNumber _) => true
  | _ => false
  end.

(** [v !== undefined] *)
Definition isDefined (v : JSValue) : bool :=
  match v with
  | Some _ => true
  | None => false
  end.

(** [tuple[k]] on a decoded value: an element of an array, a member of an
    object, a character of a string, [undefined] on a boolean or a number,
    and a [TypeError] on [null]. *)
Definition getIndex (tuple : JSON) (k : nat) : Completion JSValue :=
  match tuple with
  | JNull => Throw TypeError
  | JBool _ | JNumber _ => Normal None
  | JString s =>
      Normal (option_map (fun c => JString (String c EmptyString))
                         (String.get k s))
  | JArray elements => Normal (nth_error elements k)
  | JObject members =>
      Normal (option_map snd
                (find (fun m => String.eqb (fst m)
                                  (numberToString (Z.of_nat k)))
                      members))
  end.

(** What the program holds as a parcel before validation. *)
Module Raw.
Record Parcel : Set := { pickupAddress : JSValue; dropoffAddress : JSValue }.
End Raw.

Definition isParcel (parcel : Raw.Parcel) : bool :=
  isDefined (Raw.pickupAddress parcel) &&
  isDefined (Raw.dropoffAddress parcel) &&
  isNumber (Raw.pickupAddress parcel) &&
  isNumber (Raw.dropoffAddress parcel).

Definition ParcelFromTuple (tuple : JSON) : Completion Raw.Parcel :=
  p <- getIndex tuple 0 ;;
  d <- getIndex tuple 1 ;;
  Normal {| Raw.pickupAddress := p; Raw.dropoffAddress := d |}.

(** The tuple is the array [[pickupAddress, dropoffAddress]]. *)
Definition TupleFromParcel (parcel : Parcel) : JSON :=
  JArray [JNumber (pickupAddress parcel); JNumber (dropoffAddress parcel)].

(** [isDeliveries] on an array ([Array.isArray] holds of it). *)
Definition isDeliveries (deliveries : list Raw.Parcel) : bool :=
  negb (Nat.eqb (List.length deliveries) 0) && true &&
  forallb isParcel deliveries.

Definition isTruckPath (truckPath : JSON) : bool :=
  match truckPath with
  | JArray elements => forallb (fun address => isNumber (Some address)) elements
  | _ => false
  end.

(** A type guard narrows the static type of a value and leaves the value as
    it is; these read a validated value at its narrowed type. *)
Definition asNumber (v : JSValue) : Z :=
  match v with
  | Some (JNumber n) => n
  | _ => 0
  end.

Definition asParcel (parcel : Raw.Parcel) : Parcel :=
  {| pickupAddress := asNumber (Raw.pickupAddress parcel);
     dropoffAddress := asNumber (Raw.dropoffAddress parcel) |}.

Definition asTruckPath (truckPath : JSON) : TruckPath :=
  match truckPath with
  | JArray elements => map (fun address => asNumber (Some address)) elements
  | _ => []
  end.

(** [Array.prototype.map] with a callback that can throw. *)
Fixpoint mapM {A B : Type} (f : A -> Completion B) (l : list A)
  : Completion (list B) :=
  match l with
  | [] => Normal []
  | x :: r => y <- f x ;; ys <- mapM f r ;; Normal (y :: ys)
  end.

(** A command-line word, given with what [JSON.parse] makes of it: the decoded
    value, or the [SyntaxError] it throws on text that is not JSON. *)
Record Argument : Set := { text : string; parsed : Completion JSON }.

(** [!arg] for [arg = process.argv[k]]: [undefined] or the empty string. *)
Definition isFalsy (arg : option Argument) : bool :=
  match arg with
  | None => true
  | Some a => String.eqb (text a) ""
  end.

Definition JSON_parse (arg : option Argument) : Completion JSON :=
  match arg with
  | Some a => parsed a
  | None => Throw SyntaxError
  end.

(** A word that is not JSON, and a word that decodes to [j]. *)
Definition malformed (s : string) : Argument :=
  {| text := s; parsed := Throw SyntaxError |}.

Definition wellFormed (s : string) (j : JSON) : Argument :=
  {| text := s; parsed := Normal j |}.

(** What [console.log] receives. *)
Inductive Console : Set :=
| LogText (s : string)
| LogOutput (o : Output).

(** [main], from [process.argv[2]] and [process.argv[3]]: the lines logged and
    the completion, a returned code or a thrown exception. *)
Definition main (argv2 argv3 : option Argument)
  : list Console * Completion Z :=
  let deliveriesFromArgv := argv2 in
  let truckPathFromArgv := argv3 in
  if isFalsy deliveriesFromArgv || isFalsy truckPathFromArgv then
    ([LogText "Usage: node deliverychecker.js <deliveries> <truckPath>"],
     Normal 1)
  else
    match JSON_parse deliveriesFromArgv with
    | Throw e => ([], Throw e)
    | Normal rawDeliveries =>
        match rawDeliveries with
        | JArray ((_ :: _) as elements) =>
            match mapM ParcelFromTuple elements with
            | Throw e => ([], Throw e)
            | Normal deliveries =>
                match JSON_parse truckPathFromArgv with
                | Throw e => ([], Throw e)
                | Normal truckPath =>
                    if negb (isDeliveries deliveries) then
                      ([LogText "Invalid deliveries"], Normal 2)
                    else if negb (isTruckPath truckPath) then
                      ([LogText "Invalid truckPath"], Normal 4)
                    else
                      match generateTruckSteps (map asParcel deliveries)
                              (asTruckPath truckPath) with
                      | Throw e => ([], Throw e)
                      | Normal result => ([LogOutput result], Normal 0)
                      end
                end
            end
        | _ => ([LogText "Invalid deliveries"], Normal 2)
        end
    end.

(** The code [main] returns, when it returns. *)
Definition exitCode (run : list Console * Completion Z) : Completion Z :=
  snd run.

(** ** The guards, on any decoded value

    [isParcel] and [isDeliveries] above are the guards where [main] calls
    them, on parcels it has just built.  The guards are declared on [any]:
    here they are on every decoded value, a parcel being an object with the
    members [pickupAddress] and [dropoffAddress]. *)

Module Guards.

(** The member [name] of an object; a missing member reads [undefined]. *)
Definition member (members : list (string * JSON)) (name : string)
  : JSValue :=
  option_map snd (find (fun m => String.eqb (fst m) name) members).

(** [v.name], for a name that is not an index: a member of an object, the
    [length] of an array or of a string (taken as its sequence of code units),
    [undefined] otherwise, and a [TypeError] on [null]. *)
Definition getMember (v : JSON) (name : string) : Completion JSValue :=
  match v with
  | JNull => Throw TypeError
  | JBool _ | JNumber _ => Normal None
  | JString s =>
      Normal (if String.eqb name "length"
              then Some (JNumber (Z.of_nat (String.length s)))
              else None)
  | JArray elements =>
      Normal (if String.eqb name "length"
              then Some (JNumber (Z.of_nat (List.length elements)))
              else None)
  | JObject members => Normal (member members name)
  end.

Definition isParcel (parcel : JSON) : Completion bool :=
  p <- getMember parcel "pickupAddress" ;;
  if negb (isDefined p) then Normal false
  else
    d <- getMember parcel "dropoffAddress" ;;
    if negb (isDefined d) then Normal false
    else Normal (isNumber p && isNumber d).

(** [len !== 0] *)
Definition isNotZero (len : JSValue) : bool :=
  match len with
  | Some (JNumber 0) => false
  | _ => true
  end.

(** [Array.isArray(v)] *)
Definition isArray (v : JSON) : bool :=
  match v with
  | JArray _ => true
  | _ => false
  end.

(** [Array.prototype.every] with a callback that can throw; it stops at the
    first element the callback refuses. *)
Fixpoint every (f : JSON -> Completion bool) (l : list JSON)
  : Completion bool :=
  match l with
  | [] => Normal true
  | x :: r => b <- f x ;; if b then every f r else Normal false
  end.

Definition isDeliveries (deliveries : JSON) : Completion bool :=
  len <- getMember deliveries "length" ;;
  if negb (isNotZero len) then Normal false
  else if negb (isArray deliveries) then Normal false
  else
    match deliveries with
    | JArray elements => every isParcel elements
    | _ => Normal false
    end.

(** The object that reads as the parcel [raw] does. *)
Definition objectOf (raw : Raw.Parcel) : JSON :=
  JObject
    (match Raw.pickupAddress raw with
     | Some v => [("pickupAddress"%string, v)]
     | None => []
     end ++
     match Raw.dropoffAddress raw with
     | Some v => [("dropoffAddress"%string, v)]
     | None => []
     end).

End Guards.

(** ** The specification's vocabulary *)

(** [i] is the index of the first occurrence of [x] in [l]. *)
Definition first_occurrence (l : list Z) (x : Z) (i : nat) : Prop :=
  nth_error l i = Some x /\
  forall j, (j < i)%nat -> nth_error l j <> Some x.

(** Closes [first_occurrence l x k] on a literal list. *)
Ltac first_occ :=
  split;
  [ reflexivity
  | let j := fresh "j" in
    let Hj := fresh "Hj" in
    intros j Hj;
    repeat (destruct j as [|j]; [simpl; discriminate || lia | try lia]) ].

(** A parcel is feasible on a path when its check succeeds. *)
Definition feasible (truckPath : TruckPath) (parcel : Parcel) : Prop :=
  tag (parcelCanBeDelivered parcel truckPath) = true.

(** The step pair of a parcel. *)
Definition stepPair (parcel : Parcel) : list Step :=
  [ {| address := pickupAddress parcel; action := Some pickup |};
    {| address := dropoffAddress parcel; action := Some dropoff |} ].

(** The synthetic pass-through step that follows [s]. *)
Definition passThrough (s : Step) : Step :=
  {| address := address s + 1; action := None |}.

(** Gap filling as the specification words it: between adjacent steps
    [a], [b] a pass-through step is put exactly when [b] is two addresses
    after [a]. *)
Fixpoint fillGaps (s : list Step) : list Step :=
  match s with
  | [] => []
  | a :: r =>
      match r with
      | [] => [a]
      | b :: _ =>
          if address b =? address a + 2
          then a :: passThrough a :: fillGaps r
          else a :: fillGaps r
      end
  end.

(** [parcel], at index [k], is the first infeasible parcel of [deliveries], in
    input order. *)
Definition first_infeasible_at (truckPath : TruckPath)
  (deliveries : Deliveries) (k : nat) (parcel : Parcel) : Prop :=
  nth_error deliveries k = Some parcel /\
  ~ feasible truckPath parcel /\
  forall j q, (j < k)%nat -> nth_error deliveries j = Some q ->
              feasible truckPath q.

(** [Array.isArray(j) && j.length !== 0] on a decoded value. *)
Definition isNonEmptyArray (j : JSON) : bool :=
  match j with
  | JArray (_ :: _) => true
  | _ => false
  end.

(** Ascending by address. *)
Definition address_le (a b : Step) : Prop := address a <= address b.

Definition isPassThrough (s : Step) : bool :=
  match action s with
  | None => true
  | Some _ => false
  end.

(** The steps at one address. *)
Definition atAddress (a : Z) (s : Step) : bool := address s =? a.

(** The number of pass-through steps of a sequence. *)
Definition passThroughCount (l : list Step) : nat :=
  List.length (filter isPassThrough l).

(** The steps of the parcels, in input order, pickup before dropoff. *)
Definition parcelSteps (deliveries : Deliveries) : list Step :=
  flat_map stepPair deliveries.

(** The address [a] is the pickup or the dropoff address of some parcel. *)
Definition served (deliveries : Deliveries) (a : Z) : Prop :=
  In a (map address (parcelSteps deliveries)).

(** [b] comes after [a], at most [k] addresses further. *)
Definition within (k : Z) (a b : Step) : Prop :=
  address a <= address b <= address a + k.

(** A truck path as the decoded argument holds it. *)
Definition pathToJSON (truckPath : TruckPath) : JSON :=
  JArray (map JNumber truckPath).

(** The deliveries as the decoded argument holds them. *)
Definition deliveriesToJSON (deliveries : Deliveries) : JSON :=
  JArray (map TupleFromParcel deliveries).

(** A parcel as the program holds it before validation. *)
Definition rawOf (parcel : Parcel) : Raw.Parcel :=
  {| Raw.pickupAddress := Some (JNumber (pickupAddress parcel));
     Raw.dropoffAddress := Some (JNumber (dropoffAddress parcel)) |}.

(** The four ways the check of a parcel can go. *)
Inductive CheckCase (parcel : Parcel) (truckPath : TruckPath) : Prop :=
| PickupAbsent :
    ~ In (pickupAddress parcel) truckPath ->
    (exists m, parcelCanBeDelivered parcel truckPath =
               Undeliverable {| error_code := delivery_address_not_in_path;
                                error_message := m |}) ->
    CheckCase parcel truckPath
| DropoffAbsent :
    In (pickupAddress parcel) truckPath ->
    ~ In (dropoffAddress parcel) truckPath ->
    (exists m, parcelCanBeDelivered parcel truckPath =
               Undeliverable {| error_code := dropoff_address_not_in_path;
                                error_message := m |}) ->
    CheckCase parcel truckPath
| DropoffFirst (i j : nat) :
    first_occurrence truckPath (pickupAddress parcel) i ->
    first_occurrence truckPath (dropoffAddress parcel) j ->
    (j < i)%nat ->
    (exists m, parcelCanBeDelivered parcel truckPath =
               Undeliverable {| error_code := delivery_dropoff_before_pickup;
                                error_message := m |}) ->
    CheckCase parcel truckPath
| InOrder (i j : nat) :
    first_occurrence truckPath (pickupAddress parcel) i ->
    first_occurrence truckPath (dropoffAddress parcel) j ->
    (i <= j)%nat ->
    tag (parcelCanBeDelivered parcel truckPath) = true ->
    CheckCase parcel truckPath.

(** The addresses on which the program computes as written here: with
    [|a| + 2 <= 2^53], the numbers [a], [a + 1] and [a + 2] are exact and
    [`${a}`] is the decimal text of [a]. *)
Definition safeAddress (a : Z) : Prop :=
  Z.abs a + 2 <= 9007199254740992.

Definition safeParcel (parcel : Parcel) : Prop :=
  safeAddress (pickupAddress parcel) /\ safeAddress (dropoffAddress parcel).

(** Closes a safe-range goal on literal addresses. *)
Ltac safe_range :=
  repeat constructor;
  unfold safeAddress; cbn [pickupAddress dropoffAddress address]; lia.

(** * Facts about the built-ins *)

Section IndexOf.

Lemma indexOf_from_absent (l : list Z) (x : Z) :
  forall i, ~ In x l -> indexOf_from l x i = -1.
Proof.
  induction l as [|y r IH]; intros i Hni; simpl.
  - reflexivity.
  - destruct (Z.eqb_spec y x) as [->|Hne].
    + exfalso. apply Hni. now left.
    + apply IH. intro Hin. apply Hni. now right.
Qed.

Lemma indexOf_from_first (l : list Z) (x : Z) :
  forall (k : nat) (i : Z),
    first_occurrence l x k -> indexOf_from l x i = i + Z.of_nat k.
Proof.
  induction l as [|y r IH]; intros k i [Hk Hfirst].
  - destruct k; discriminate Hk.
  - simpl. destruct k as [|k].
    + simpl in Hk. injection Hk as ->. rewrite Z.eqb_refl. lia.
    + destruct (Z.eqb_spec y x) as [->|Hne].
      * exfalso. apply (Hfirst 0%nat); [lia | reflexivity].
      * rewrite (IH k (i + 1)); [lia|].
        split; [exact Hk|].
        intros j Hj. apply (Hfirst (S j)). lia.
Qed.

Lemma first_occurrence_In (l : list Z) (x : Z) (k : nat) :
  first_occurrence l x k -> In x l.
Proof. intros [Hk _]. eapply nth_error_In; eassumption. Qed.

Lemma In_first_occurrence (l : list Z) (x : Z) :
  In x l -> exists k, first_occurrence l x k.
Proof.
  induction l as [|y r IH]; intros Hin; [destruct Hin|].
  destruct (Z.eq_dec y x) as [->|Hne].
  - exists 0%nat. split; [reflexivity | intros j Hj; lia].
  - destruct Hin as [Heq|Hin]; [contradiction|].
    destruct (IH Hin) as [k [Hk Hfirst]].
    exists (S k). split; [exact Hk|].
    intros [|j] Hj; simpl.
    + intros [= Heq]. contradiction.
    + apply Hfirst. lia.
Qed.

Lemma indexOf_first (l : list Z) (x : Z) (k : nat) :
  first_occurrence l x k -> indexOf l x = Z.of_nat k.
Proof.
  intros H. unfold indexOf. now rewrite (indexOf_from_first l x k 0 H).
Qed.

Lemma indexOf_absent (l : list Z) (x : Z) :
  ~ In x l -> indexOf l x = -1.
Proof. apply indexOf_from_absent. Qed.

End IndexOf.

(** * The feasibility check *)

Section Feasibility.

Variable parcel : Parcel.
Variable truckPath : TruckPath.

Lemma check_pickup_absent :
  ~ In (pickupAddress parcel) truckPath ->
  parcelCanBeDelivered parcel truckPath =
  Undeliverable {| error_code := delivery_address_not_in_path;
                   error_message :=
                   ("Delivery address "
                    ++ numberToString (pickupAddress parcel)
                    ++ " not in path")%string |}.
Proof.
  intros Hni. unfold parcelCanBeDelivered.
  now rewrite (indexOf_absent _ _ Hni).
Qed.

Lemma check_both_present (i j : nat) :
  first_occurrence truckPath (pickupAddress parcel) i ->
  first_occurrence truckPath (dropoffAddress parcel) j ->
  parcelCanBeDelivered parcel truckPath =
  if (j <? i)%nat
  then Undeliverable {| error_code := delivery_dropoff_before_pickup;
                        error_message :=
                        ("Dropoff address "
                         ++ numberToString (dropoffAddress parcel)
                         ++ " before pickup address "
                         ++ numberToString (pickupAddress parcel))%string |}
  else Deliverable
         ({| address := pickupAddress parcel; action := Some pickup |},
          {| address := dropoffAddress parcel; action := Some dropoff |}).
Proof.
  intros Hp Hd. unfold parcelCanBeDelivered.
  rewrite (indexOf_first _ _ _ Hp), (indexOf_first _ _ _ Hd).
  destruct (Z.eqb_spec (Z.of_nat i) (-1)); [lia|].
  destruct (Z.eqb_spec (Z.of_nat j) (-1)); [lia|].
  destruct (Nat.ltb_spec j i), (Z.ltb_spec (Z.of_nat j) (Z.of_nat i));
    try lia; reflexivity.
Qed.

End Feasibility.

(** * The sort *)

Section Sorting.

Lemma sort_insert_perm (s : Step) (l : list Step) :
  Permutation (s :: l) (sort_insert s l).
Proof.
  induction l as [|h r IH]; simpl.
  - reflexivity.
  - destruct (address s - address h <? 0).
    + reflexivity.
    + rewrite perm_swap. now apply perm_skip.
Qed.

Lemma sort_insert_HdRel (s h : Step) (l : list Step) :
  address_le h s -> HdRel address_le h l ->
  HdRel address_le h (sort_insert s l).
Proof.
  intros Hhs Hhd. destruct l as [|x r]; simpl.
  - now constructor.
  - destruct (address s - address x <? 0); constructor; trivial.
    now inversion Hhd.
Qed.

Lemma sort_insert_sorted (s : Step) (l : list Step) :
  Sorted address_le l -> Sorted address_le (sort_insert s l).
Proof.
  induction 1 as [|h r Hs IH Hhd]; simpl.
  - repeat constructor.
  - destruct (Z.ltb_spec (address s - address h) 0) as [Hlt|Hge].
    + constructor; [now constructor|].
      constructor. unfold address_le. lia.
    + constructor; [exact IH|].
      apply sort_insert_HdRel; [unfold address_le; lia | exact Hhd].
Qed.

Lemma sort_fold_perm (l acc : list Step) :
  Permutation (acc ++ l) (fold_left (fun a s => sort_insert s a) l acc).
Proof.
  revert acc. induction l as [|s r IH]; intros acc; simpl.
  - now rewrite app_nil_r.
  - rewrite <- IH. rewrite <- sort_insert_perm.
    now rewrite <- Permutation_middle.
Qed.

Lemma sort_fold_sorted (l acc : list Step) :
  Sorted address_le acc ->
  Sorted address_le (fold_left (fun a s => sort_insert s a) l acc).
Proof.
  revert acc. induction l as [|s r IH]; intros acc Hacc; simpl.
  - exact Hacc.
  - apply IH. now apply sort_insert_sorted.
Qed.

Lemma sortByAddress_perm (l : list Step) :
  Permutation l (sortByAddress l).
Proof. exact (sort_fold_perm l []). Qed.

Lemma sortByAddress_sorted (l : list Step) :
  Sorted address_le (sortByAddress l).
Proof. apply sort_fold_sorted. constructor. Qed.

Lemma sortByAddress_length (l : list Step) :
  List.length (sortByAddress l) = List.length l.
Proof. symmetry. apply Permutation_length, sortByAddress_perm. Qed.

(** Stability: the steps of one address keep their order. *)

Lemma filter_none {A : Type} (f : A -> bool) (l : list A) :
  Forall (fun x => f x = false) l -> filter f l = [].
Proof.
  induction 1 as [|x r Hx _ IH]; simpl; [reflexivity|].
  now rewrite Hx.
Qed.

Lemma sort_insert_stable (a : Z) (s : Step) (l : list Step) :
  Sorted address_le l ->
  filter (atAddress a) (sort_insert s l) =
  filter (atAddress a) l ++ filter (atAddress a) [s].
Proof.
  intros Hs. apply Sorted_StronglySorted in Hs.
  2:{ intros x y z; unfold address_le; lia. }
  induction Hs as [|h r Hs IH Hall]; simpl.
  - reflexivity.
  - destruct (Z.ltb_spec (address s - address h) 0) as [Hlt|Hge].
    + simpl. destruct (atAddress a s) eqn:Es; [|now rewrite app_nil_r].
      apply Z.eqb_eq in Es.
      assert (Eh : atAddress a h = false) by (apply Z.eqb_neq; lia).
      rewrite Eh, filter_none; [reflexivity|].
      eapply Forall_impl; [|exact Hall].
      intros x Hx. unfold address_le in Hx. apply Z.eqb_neq. lia.
    + simpl. rewrite IH. simpl.
      now destruct (atAddress a h).
Qed.

Lemma sortByAddress_stable (a : Z) (l : list Step) :
  filter (atAddress a) (sortByAddress l) = filter (atAddress a) l.
Proof.
  unfold sortByAddress.
  change (filter (atAddress a) l) with (filter (atAddress a) [] ++ filter (atAddress a) l).
  assert (Hnil : Sorted address_le []) by constructor.
  revert Hnil. generalize (@nil Step) as acc. 
  induction l as [|s r IH]; intros acc Hacc; simpl.
  - now rewrite app_nil_r.
  - rewrite IH by now apply sort_insert_sorted.
    rewrite sort_insert_stable by exact Hacc.
    simpl. rewrite <- app_assoc. now destruct (atAddress a s).
Qed.

Lemma filter_below (a : Z) (h : Step) (r : list Step) :
  a < address h -> Forall (address_le h) r ->
  filter (atAddress a) (h :: r) = [].
Proof.
  intros Hlt Hall. apply filter_none. constructor.
  - apply Z.eqb_neq. lia.
  - eapply Forall_impl; [|exact Hall].
    intros x Hx. unfold address_le in Hx. apply Z.eqb_neq. lia.
Qed.

Lemma atAddress_own (x : Step) : atAddress (address x) x = true.
Proof. apply Z.eqb_refl. Qed.

(** Two arrangements that are ascending and list the steps of every address
    in the same order are the same arrangement. *)
Lemma stable_sorted_unique (l1 : list Step) :
  forall l2 : list Step,
    StronglySorted address_le l1 -> StronglySorted address_le l2 ->
    (forall a, filter (atAddress a) l1 = filter (atAddress a) l2) ->
    l1 = l2.
Proof.
  induction l1 as [|x r1 IH]; intros [|y r2] H1 H2 Hsame; trivial.
  - specialize (Hsame (address y)). simpl in Hsame.
    rewrite atAddress_own in Hsame. discriminate.
  - specialize (Hsame (address x)). simpl in Hsame.
    rewrite atAddress_own in Hsame. discriminate.
  - inversion H1 as [|? ? Hr1 Hx]; inversion H2 as [|? ? Hr2 Hy]; subst.
    destruct (Z.lt_trichotomy (address x) (address y)) as [Hlt|[Heq|Hgt]].
    + specialize (Hsame (address x)).
      rewrite (filter_below _ y r2 Hlt Hy) in Hsame. simpl in Hsame.
      rewrite atAddress_own in Hsame. discriminate.
    + pose proof (Hsame (address x)) as Hx0. simpl in Hx0.
      rewrite atAddress_own in Hx0. rewrite Heq in Hx0 at 2.
      rewrite atAddress_own in Hx0. injection Hx0 as <- Hrest.
      f_equal. apply IH; trivial.
      intros a. destruct (Z.eq_dec a (address x)) as [->|Hne]; trivial.
      specialize (Hsame a). simpl in Hsame.
      assert (E : atAddress a x = false) by (apply Z.eqb_neq; congruence).
      now rewrite E in Hsame.
    + specialize (Hsame (address y)).
      rewrite (filter_below _ x r1 Hgt Hx) in Hsame. simpl in Hsame.
      rewrite atAddress_own in Hsame. discriminate.
Qed.

(** So [sortByAddress] is what any stable sort by ascending address returns. *)
Lemma sortByAddress_unique (l sorted : list Step) :
  Sorted address_le sorted ->
  (forall a, filter (atAddress a) sorted = filter (atAddress a) l) ->
  sorted = sortByAddress l.
Proof.
  assert (Htrans : Relations_1.Transitive address_le)
    by (intros x y z; unfold address_le; lia).
  intros Hs Hsame. apply stable_sorted_unique.
  - now apply Sorted_StronglySorted.
  - apply Sorted_StronglySorted; [exact Htrans | apply sortByAddress_sorted].
  - intros a. now rewrite sortByAddress_stable.
Qed.

End Sorting.

(** * Gap filling *)

Section GapFill.

(** The [reduce] of the program computes [fillGaps], and never reads past the
    end of [steps]. *)
Lemma reduce_from_addMissing (rest : list Step) :
  forall (done acc : list Step),
    reduce_from (addMissing (done ++ rest)) rest (List.length done) acc =
    Normal (acc ++ fillGaps rest).
Proof.
  induction rest as [|step r IH]; intros done acc.
  - simpl. now rewrite app_nil_r.
  - cbn [reduce_from fillGaps]. unfold addMissing at 1.
    rewrite length_app.
    destruct r as [|nextStep r']; cbn [List.length].
    + replace (List.length done + 1 - 1)%nat with (List.length done) by lia.
      rewrite Nat.eqb_refl. reflexivity.
    + destruct (Nat.eqb_spec (List.length done)
                  (List.length done + S (S (List.length r')) - 1)) as [E|_];
        [lia|].
      rewrite nth_error_app2 by lia.
      replace (List.length done + 1 - List.length done)%nat with 1%nat by lia.
      cbn [nth_error bind].
      specialize (IH (done ++ [step])).
      rewrite <- app_assoc, length_app in IH. cbn [List.length app] in IH.
      replace (List.length done + 1)%nat with (S (List.length done)) in IH
        by lia.
      destruct (address nextStep =? address step + 2); cbn [bind];
        rewrite IH, <- app_assoc; reflexivity.
Qed.

Lemma reduce_addMissing (steps : list Step) :
  reduce (addMissing steps) steps [] = Normal (fillGaps steps).
Proof. exact (reduce_from_addMissing steps [] []). Qed.

Lemma fillGaps_length (s : list Step) :
  Forall (fun x => isPassThrough x = false) s ->
  List.length (fillGaps s) =
  (List.length s + passThroughCount (fillGaps s))%nat.
Proof.
  unfold passThroughCount.
  induction 1 as [|a r Ha Hr IH]; [reflexivity|].
  cbn [fillGaps]. destruct r as [|b r'].
  - simpl. rewrite Ha. reflexivity.
  - destruct (address b =? address a + 2); cbn [List.length filter];
      rewrite Ha; cbn [isPassThrough passThrough action List.length];
      rewrite IH; simpl; lia.
Qed.

End GapFill.

(** * Reordering along the path *)

Section Reorder.

Lemma mapi_from_length {A B : Type} (f : A -> nat -> B) (l : list A) :
  forall i, List.length (mapi_from f l i) = List.length l.
Proof.
  induction l as [|x r IH]; intros i; simpl; [reflexivity|].
  now rewrite IH.
Qed.

Lemma mapi_from_nth {A B : Type} (f : A -> nat -> B) (l : list A) :
  forall i k x, nth_error l k = Some x ->
                nth_error (mapi_from f l i) k = Some (f x (i + k)%nat).
Proof.
  induction l as [|y r IH]; intros i k x Hk.
  - destruct k; discriminate.
  - destruct k as [|k]; simpl in *.
    + injection Hk as ->. now rewrite Nat.add_0_r.
    + rewrite (IH (S i) k x Hk). f_equal. f_equal. lia.
Qed.

Lemma reorder_length (fullSteps : list Step) (truckPath : TruckPath) :
  List.length (reorder fullSteps truckPath) = List.length fullSteps.
Proof. apply mapi_from_length. Qed.

Lemma reorder_nth (fullSteps : list Step) (truckPath : TruckPath) (i : nat) :
  (i < List.length fullSteps)%nat ->
  nth_error (reorder fullSteps truckPath) i =
  Some (find (addressIs (nth_error truckPath i)) fullSteps).
Proof.
  intros Hi. destruct (nth_error fullSteps i) as [x|] eqn:Hx.
  - unfold reorder, mapi. now rewrite (mapi_from_nth _ _ 0%nat i x Hx).
  - apply nth_error_None in Hx. lia.
Qed.

End Reorder.

(** * The aggregator *)

Section Aggregator.

Variable truckPath : TruckPath.

Lemma feasible_pair (parcel : Parcel) :
  feasible truckPath parcel ->
  parcelCanBeDelivered parcel truckPath =
  Deliverable
    ({| address := pickupAddress parcel; action := Some pickup |},
     {| address := dropoffAddress parcel; action := Some dropoff |}).
Proof.
  unfold feasible, parcelCanBeDelivered.
  destruct (_ =? -1); [discriminate|].
  destruct (_ =? -1); [discriminate|].
  destruct (_ <? _); [discriminate|]. reflexivity.
Qed.

Lemma infeasible_error (parcel : Parcel) :
  ~ feasible truckPath parcel ->
  exists e, parcelCanBeDelivered parcel truckPath = Undeliverable e /\
            error_code e <> unknown_error.
Proof.
  unfold feasible, parcelCanBeDelivered.
  destruct (_ =? -1); [intros _; eexists; split; [reflexivity|discriminate]|].
  destruct (_ =? -1); [intros _; eexists; split; [reflexivity|discriminate]|].
  destruct (_ <? _); [intros _; eexists; split; [reflexivity|discriminate]|].
  intros H. now elim H.
Qed.

Lemma all_deliverable (deliveries : Deliveries) :
  Forall (feasible truckPath) deliveries ->
  parcelsAreAllDeliverable
    (map (fun parcel => parcelCanBeDelivered parcel truckPath) deliveries)
  = true.
Proof.
  induction 1 as [|p r Hp _ IH]; [reflexivity|].
  unfold parcelsAreAllDeliverable in *. simpl. rewrite IH.
  unfold feasible in Hp. now rewrite Hp.
Qed.

Lemma flat_pairs (deliveries : Deliveries) :
  Forall (feasible truckPath) deliveries ->
  flat_map pairSteps
    (map (fun parcel => parcelCanBeDelivered parcel truckPath) deliveries)
  = flat_map stepPair deliveries.
Proof.
  induction 1 as [|p r Hp _ IH]; [reflexivity|].
  simpl. now rewrite IH, (feasible_pair p Hp).
Qed.

Lemma generateTruckSteps_success (deliveries : Deliveries) :
  Forall (feasible truckPath) deliveries ->
  generateTruckSteps deliveries truckPath =
  Normal (success
    (reorder (fillGaps (sortByAddress (flat_map stepPair deliveries)))
             truckPath)).
Proof.
  intros Hall. unfold generateTruckSteps.
  rewrite (all_deliverable _ Hall). cbn [negb].
  rewrite reduce_addMissing. cbn [bind].
  now rewrite (flat_pairs _ Hall).
Qed.

Lemma first_failure (before after : Deliveries) (parcel : Parcel) (e : Error) :
  Forall (feasible truckPath) before ->
  parcelCanBeDelivered parcel truckPath = Undeliverable e ->
  let maybeSteps :=
    map (fun p => parcelCanBeDelivered p truckPath)
        (before ++ parcel :: after) in
  parcelsAreAllDeliverable maybeSteps = false /\
  find (fun tuple => Bool.eqb (tag tuple) false) maybeSteps =
  Some (Undeliverable e).
Proof.
  intros Hbefore He. cbn zeta.
  induction Hbefore as [|p r Hp _ [IH1 IH2]]; simpl.
  - rewrite He. simpl. split; reflexivity.
  - unfold feasible in Hp. unfold parcelsAreAllDeliverable in *.
    simpl. rewrite Hp. simpl. split; assumption.
Qed.

Lemma generateTruckSteps_failure
  (before after : Deliveries) (parcel : Parcel) (e : Error) :
  Forall (feasible truckPath) before ->
  parcelCanBeDelivered parcel truckPath = Undeliverable e ->
  generateTruckSteps (before ++ parcel :: after) truckPath = Normal (error e).
Proof.
  intros Hbefore He.
  destruct (first_failure before after parcel e Hbefore He) as [Hall Hfind].
  unfold generateTruckSteps. now rewrite Hall, Hfind.
Qed.

Lemma feasible_dec (parcel : Parcel) :
  {feasible truckPath parcel} + {~ feasible truckPath parcel}.
Proof. unfold feasible. destruct (tag _); [left | right]; congruence. Qed.

(** Either every parcel is feasible, or there is a first infeasible one. *)
Lemma first_infeasible (deliveries : Deliveries) :
  Forall (feasible truckPath) deliveries \/
  exists before parcel after,
    deliveries = before ++ parcel :: after /\
    Forall (feasible truckPath) before /\
    ~ feasible truckPath parcel.
Proof.
  induction deliveries as [|p r IH].
  - left. constructor.
  - destruct (feasible_dec p) as [Hp|Hp].
    + destruct IH as [IH|(b & q & a & -> & Hb & Hq)].
      * left. now constructor.
      * right. exists (p :: b), q, a. repeat split; trivial. now constructor.
    + right. exists [], p, r. repeat split; trivial.
Qed.

(** The aggregator never throws. *)
Lemma generateTruckSteps_total (deliveries : Deliveries) :
  exists out, generateTruckSteps deliveries truckPath = Normal out.
Proof.
  destruct (first_infeasible deliveries)
    as [Hall|(b & q & a & -> & Hb & Hq)].
  - eexists. now apply generateTruckSteps_success.
  - destruct (infeasible_error q Hq) as (e & He & _).
    exists (error e). now apply generateTruckSteps_failure.
Qed.

End Aggregator.

(** * The runs of the test suite *)

Module Tests.

Example check_deliverable :
  parcelCanBeDelivered {| pickupAddress := 1; dropoffAddress := 2 |} [1; 2] =
  Deliverable ({| address := 1; action := Some pickup |},
               {| address := 2; action := Some dropoff |}).
Proof. reflexivity. Qed.

Example check_dropoff_absent :
  parcelCanBeDelivered {| pickupAddress := 1; dropoffAddress := 2 |} [1] =
  Undeliverable {| error_code := dropoff_address_not_in_path;
                   error_message := "Dropoff address 2 not in path" |}.
Proof. reflexivity. Qed.

Example all_deliverable_mixed :
  parcelsAreAllDeliverable
    [ Deliverable ({| address := 1; action := Some pickup |},
                   {| address := 2; action := Some dropoff |});
      Undeliverable {| error_code := delivery_address_not_in_path;
                       error_message := "Delivery address 1 not in path" |} ]
  = false.
Proof. reflexivity. Qed.

Example steps_single :
  generateTruckSteps [ {| pickupAddress := 1; dropoffAddress := 2 |} ] [1; 2]
  = Normal (success [ Some {| address := 1; action := Some pickup |};
                      Some {| address := 2; action := Some dropoff |} ]).
Proof. reflexivity. Qed.

Example steps_reversed_pathing :
  generateTruckSteps
    [ {| pickupAddress := 3; dropoffAddress := 1 |};
      {| pickupAddress := 5; dropoffAddress := 2 |} ] [5; 4; 3; 2; 1]
  = Normal (success
      [ Some {| address := 5; action := Some pickup |};
        Some {| address := 4; action := None |};
        Some {| address := 3; action := Some pickup |};
        Some {| address := 2; action := Some dropoff |};
        Some {| address := 1; action := Some dropoff |} ]).
Proof. reflexivity. Qed.

Example steps_exemple_2 :
  generateTruckSteps
    [ {| pickupAddress := 1; dropoffAddress := 3 |};
      {| pickupAddress := 2; dropoffAddress := 5 |} ] [1; 2; 4]
  = Normal (error {| error_code := dropoff_address_not_in_path;
                     error_message := "Dropoff address 3 not in path" |}).
Proof. reflexivity. Qed.

Example steps_exemple_3 :
  generateTruckSteps
    [ {| pickupAddress := 1; dropoffAddress := 3 |};
      {| pickupAddress := 2; dropoffAddress := 5 |} ] [1; 4; 2; 3]
  = Normal (error {| error_code := dropoff_address_not_in_path;
                     error_message := "Dropoff address 5 not in path" |}).
Proof. reflexivity. Qed.

Example isParcel_string_address :
  isParcel {| Raw.pickupAddress := Some (JString "1");
              Raw.dropoffAddress := Some (JNumber 2) |} = false.
Proof. reflexivity. Qed.

Example isDeliveries_empty : isDeliveries [] = false.
Proof. reflexivity. Qed.

Example isTruckPath_empty : isTruckPath (JArray []) = true.
Proof. reflexivity. Qed.

Example isTruckPath_mixed :
  isTruckPath (JArray [JNumber 1; JString "2"; JNumber 3]) = false.
Proof. reflexivity. Qed.

End Tests.

(** * Properties of the feasibility check *)

(** C1. For every parcel and every truck path: when the pickup address and
    the dropoff address both occur in the path and the first occurrence of the
    dropoff address is at an index greater than or equal to the index of the
    first occurrence of the pickup address, [parcelCanBeDelivered] succeeds
    with exactly two steps, the pickup at the pickup address, then the dropoff
    at the dropoff address. *)
Theorem parcelCanBeDelivered_success
  (parcel : Parcel) (truckPath : TruckPath) (i j : nat) :
  first_occurrence truckPath (pickupAddress parcel) i ->
  first_occurrence truckPath (dropoffAddress parcel) j ->
  (i <= j)%nat ->
  parcelCanBeDelivered parcel truckPath =
  Deliverable
    ({| address := pickupAddress parcel; action := Some pickup |},
     {| address := dropoffAddress parcel; action := Some dropoff |}).
Proof.
  intros Hp Hd Hij. rewrite (check_both_present _ _ i j Hp Hd).
  destruct (Nat.ltb_spec j i); [lia | reflexivity].
Qed.

Lemma parcelCanBeDelivered_success_witness :
  first_occurrence [1; 2] 1 0 /\ first_occurrence [1; 2] 2 1 /\
  parcelCanBeDelivered {| pickupAddress := 1; dropoffAddress := 2 |} [1; 2] =
  Deliverable ({| address := 1; action := Some pickup |},
               {| address := 2; action := Some dropoff |}).
Proof.
  assert (Hp : first_occurrence [1; 2] 1 0) by first_occ.
  assert (Hd : first_occurrence [1; 2] 2 1) by first_occ.
  split; [exact Hp | split; [exact Hd|]].
  apply (parcelCanBeDelivered_success
           {| pickupAddress := 1; dropoffAddress := 2 |} [1; 2] 0 1 Hp Hd).
  lia.
Defined.

(** C4. For every parcel, its pickup address in the safe range, and every truck
    path: when the pickup address does not occur in the path,
    [parcelCanBeDelivered] fails with the code [delivery_address_not_in_path]
    (the kind PickupNotInPath) and the message "Delivery address
    {pickupAddress} not in path". *)
Theorem parcelCanBeDelivered_pickup_absent
  (parcel : Parcel) (truckPath : TruckPath) :
  safeAddress (pickupAddress parcel) ->
  ~ In (pickupAddress parcel) truckPath ->
  parcelCanBeDelivered parcel truckPath =
  Undeliverable
    {| error_code := delivery_address_not_in_path;
       error_message :=
         ("Delivery address " ++ numberToString (pickupAddress parcel)
          ++ " not in path")%string |}.
Proof. intros _. apply check_pickup_absent. Qed.

Lemma parcelCanBeDelivered_pickup_absent_witness :
  safeAddress 1 /\ ~ In 1 [2] /\
  parcelCanBeDelivered {| pickupAddress := 1; dropoffAddress := 2 |} [2] =
  Undeliverable
    {| error_code := delivery_address_not_in_path;
       error_message := "Delivery address 1 not in path" |}.
Proof.
  assert (Hs : safeAddress 1) by safe_range.
  assert (H : ~ In 1 [2]) by (intros [E|[]]; discriminate E).
  split; [exact Hs | split; [exact H|]].
  exact (parcelCanBeDelivered_pickup_absent
           {| pickupAddress := 1; dropoffAddress := 2 |} [2] Hs H).
Defined.

(** C5. For every parcel, its addresses in the safe range, and every truck path
    in which the pickup address and the dropoff address both occur: when the first occurrence of the dropoff
    address is at an index strictly less than the index of the first occurrence
    of the pickup address, [parcelCanBeDelivered] fails with the code
    [delivery_dropoff_before_pickup] (the kind DropoffBeforePickup) and the
    message "Dropoff address {dropoffAddress} before pickup address
    {pickupAddress}". *)
Theorem parcelCanBeDelivered_dropoff_before
  (parcel : Parcel) (truckPath : TruckPath) (i j : nat) :
  safeParcel parcel ->
  first_occurrence truckPath (pickupAddress parcel) i ->
  first_occurrence truckPath (dropoffAddress parcel) j ->
  (j < i)%nat ->
  parcelCanBeDelivered parcel truckPath =
  Undeliverable
    {| error_code := delivery_dropoff_before_pickup;
       error_message :=
         ("Dropoff address " ++ numberToString (dropoffAddress parcel)
          ++ " before pickup address "
          ++ numberToString (pickupAddress parcel))%string |}.
Proof.
  intros _ Hp Hd Hji. rewrite (check_both_present _ _ i j Hp Hd).
  destruct (Nat.ltb_spec j i); [reflexivity | lia].
Qed.

Lemma parcelCanBeDelivered_dropoff_before_witness :
  first_occurrence [2; 1] 1 1 /\ first_occurrence [2; 1] 2 0 /\
  parcelCanBeDelivered {| pickupAddress := 1; dropoffAddress := 2 |} [2; 1] =
  Undeliverable
    {| error_code := delivery_dropoff_before_pickup;
       error_message := "Dropoff address 2 before pickup address 1" |}.
Proof.
  assert (Hp : first_occurrence [2; 1] 1 1) by first_occ.
  assert (Hd : first_occurrence [2; 1] 2 0) by first_occ.
  split; [exact Hp | split; [exact Hd|]].
  apply (parcelCanBeDelivered_dropoff_before
           {| pickupAddress := 1; dropoffAddress := 2 |} [2; 1] 1 0);
    [safe_range | exact Hp | exact Hd | lia].
Defined.

(** C10. Only first occurrences count.  For every parcel, its addresses in the
    safe range, and every truck path with repeated addresses: when the first occurrence of the dropoff address
    precedes the first occurrence of the pickup address, [parcelCanBeDelivered]
    fails with [delivery_dropoff_before_pickup] even though the dropoff address
    occurs again, at an index [k] after the pickup; the parcel is rejected
    although a later dropoff stop exists. *)
Theorem parcelCanBeDelivered_first_occurrences_only
  (parcel : Parcel) (truckPath : TruckPath) (i j k : nat) :
  safeParcel parcel ->
  first_occurrence truckPath (pickupAddress parcel) i ->
  first_occurrence truckPath (dropoffAddress parcel) j ->
  (j < i)%nat ->
  (i < k)%nat ->
  nth_error truckPath k = Some (dropoffAddress parcel) ->
  tag (parcelCanBeDelivered parcel truckPath) = false /\
  parcelCanBeDelivered parcel truckPath =
  Undeliverable
    {| error_code := delivery_dropoff_before_pickup;
       error_message :=
         ("Dropoff address " ++ numberToString (dropoffAddress parcel)
          ++ " before pickup address "
          ++ numberToString (pickupAddress parcel))%string |}.
Proof.
  intros _ Hp Hd Hji _ _. rewrite (check_both_present _ _ i j Hp Hd).
  destruct (Nat.ltb_spec j i); [split; reflexivity | lia].
Qed.

Lemma parcelCanBeDelivered_first_occurrences_only_witness :
  first_occurrence [2; 1; 2] 1 1 /\ first_occurrence [2; 1; 2] 2 0 /\
  nth_error [2; 1; 2] 2 = Some 2 /\
  parcelCanBeDelivered {| pickupAddress := 1; dropoffAddress := 2 |}
    [2; 1; 2] =
  Undeliverable
    {| error_code := delivery_dropoff_before_pickup;
       error_message := "Dropoff address 2 before pickup address 1" |}.
Proof.
  assert (Hp : first_occurrence [2; 1; 2] 1 1) by first_occ.
  assert (Hd : first_occurrence [2; 1; 2] 2 0) by first_occ.
  split; [exact Hp | split; [exact Hd | split; [reflexivity|]]].
  apply (parcelCanBeDelivered_first_occurrences_only
           {| pickupAddress := 1; dropoffAddress := 2 |} [2; 1; 2] 1 0 2);
    [safe_range | exact Hp | exact Hd | lia | lia | reflexivity].
Defined.

(** * Properties of the aggregator *)

Lemma first_infeasible_at_split
  (truckPath : TruckPath) (before after : Deliveries) (parcel : Parcel) :
  Forall (feasible truckPath) before ->
  ~ feasible truckPath parcel ->
  first_infeasible_at truckPath (before ++ parcel :: after)
    (List.length before) parcel.
Proof.
  intros Hb Hp. repeat split.
  - rewrite nth_error_app2 by lia. now rewrite Nat.sub_diag.
  - exact Hp.
  - intros j q Hj Hq. rewrite nth_error_app1 in Hq by exact Hj.
    rewrite Forall_forall in Hb. apply Hb. eapply nth_error_In, Hq.
Qed.

Lemma generateTruckSteps_error_code
  (deliveries : Deliveries) (truckPath : TruckPath) (e : Error) :
  generateTruckSteps deliveries truckPath = Normal (error e) ->
  error_code e <> unknown_error.
Proof.
  destruct (first_infeasible truckPath deliveries)
    as [Hall|(b & q & a & -> & Hb & Hq)].
  - rewrite (generateTruckSteps_success _ _ Hall). discriminate.
  - destruct (infeasible_error _ q Hq) as (e' & He' & Hcode).
    rewrite (generateTruckSteps_failure _ b a q e' Hb He').
    now intros [= <-].
Qed.

(** C2. For every non-empty sequence of parcels and every truck path: when at
    least one parcel is infeasible, [generateTruckSteps] returns the error of
    the first infeasible parcel in input order, whatever the parcels before it
    (successes) and after it (successes or failures); the outcome carries that
    single error. *)
Theorem generateTruckSteps_first_error
  (deliveries : Deliveries) (truckPath : TruckPath) :
  deliveries <> [] ->
  Exists (fun parcel => ~ feasible truckPath parcel) deliveries ->
  exists (k : nat) (parcel : Parcel) (e : Error),
    first_infeasible_at truckPath deliveries k parcel /\
    parcelCanBeDelivered parcel truckPath = Undeliverable e /\
    generateTruckSteps deliveries truckPath = Normal (error e).
Proof.
  intros _ Hex.
  destruct (first_infeasible truckPath deliveries)
    as [Hall|(b & q & a & -> & Hb & Hq)].
  - exfalso. apply Exists_exists in Hex. destruct Hex as (p & Hin & Hp).
    rewrite Forall_forall in Hall. exact (Hp (Hall p Hin)).
  - destruct (infeasible_error _ q Hq) as (e & He & _).
    exists (List.length b), q, e. split; [|split].
    + now apply first_infeasible_at_split.
    + exact He.
    + now apply generateTruckSteps_failure.
Qed.

Lemma generateTruckSteps_first_error_witness :
  exists (k : nat) (parcel : Parcel) (e : Error),
    first_infeasible_at [1; 4; 2; 3]
      [ {| pickupAddress := 1; dropoffAddress := 3 |};
        {| pickupAddress := 2; dropoffAddress := 5 |} ] k parcel /\
    parcelCanBeDelivered parcel [1; 4; 2; 3] = Undeliverable e /\
    generateTruckSteps
      [ {| pickupAddress := 1; dropoffAddress := 3 |};
        {| pickupAddress := 2; dropoffAddress := 5 |} ] [1; 4; 2; 3]
    = Normal (error e).
Proof.
  apply generateTruckSteps_first_error.
  - discriminate.
  - apply Exists_cons_tl, Exists_cons_hd. unfold feasible. simpl. discriminate.
Defined.

(** C3. For every input on which all parcels are feasible, their addresses in
    the safe range, [generateTruckSteps] flattens the step pairs, sorts them ascending by
    address (keeping the order of steps of equal address), and then fills the
    gaps of the sorted sequence as [fillGaps] says: after a step [s[i]] it puts
    the step [{address: s[i].address + 1, action: null}] exactly when
    [s[i+1].address = s[i].address + 2], and nothing for any other gap.  The
    steps of the outcome are looked up in that filled sequence. *)
Theorem generateTruckSteps_fills_unit_gaps
  (deliveries : Deliveries) (truckPath : TruckPath) :
  Forall safeParcel deliveries ->
  Forall (feasible truckPath) deliveries ->
  exists sorted : list Step,
    Permutation (flat_map stepPair deliveries) sorted /\
    Sorted address_le sorted /\
    (forall a, filter (atAddress a) sorted =
               filter (atAddress a) (flat_map stepPair deliveries)) /\
    reduce (addMissing sorted) sorted [] = Normal (fillGaps sorted) /\
    generateTruckSteps deliveries truckPath =
    Normal (success (reorder (fillGaps sorted) truckPath)).
Proof.
  intros _ Hall. exists (sortByAddress (flat_map stepPair deliveries)).
  split; [apply sortByAddress_perm|].
  split; [apply sortByAddress_sorted|].
  split; [intros a; apply sortByAddress_stable|].
  split; [apply reduce_addMissing|].
  now apply generateTruckSteps_success.
Qed.

Lemma generateTruckSteps_fills_unit_gaps_witness :
  exists sorted : list Step,
    Permutation
      (flat_map stepPair [ {| pickupAddress := 1; dropoffAddress := 3 |};
                           {| pickupAddress := 4; dropoffAddress := 8 |} ])
      sorted /\
    Sorted address_le sorted /\
    (forall a, filter (atAddress a) sorted =
               filter (atAddress a)
                 (flat_map stepPair
                    [ {| pickupAddress := 1; dropoffAddress := 3 |};
                      {| pickupAddress := 4; dropoffAddress := 8 |} ])) /\
    reduce (addMissing sorted) sorted [] = Normal (fillGaps sorted) /\
    generateTruckSteps
      [ {| pickupAddress := 1; dropoffAddress := 3 |};
        {| pickupAddress := 4; dropoffAddress := 8 |} ] [1; 2; 3; 4; 8]
    = Normal (success (reorder (fillGaps sorted) [1; 2; 3; 4; 8])).
Proof.
  apply generateTruckSteps_fills_unit_gaps.
  - safe_range.
  - repeat constructor.
Defined.

(** The gap between 1 and 3 is filled, the gap between 4 and 8 is not. *)
Example fillGaps_unit_gap_only :
  fillGaps [ {| address := 1; action := Some pickup |};
             {| address := 3; action := Some dropoff |};
             {| address := 4; action := Some pickup |};
             {| address := 8; action := Some dropoff |} ]
  = [ {| address := 1; action := Some pickup |};
      {| address := 2; action := None |};
      {| address := 3; action := Some dropoff |};
      {| address := 4; action := Some pickup |};
      {| address := 8; action := Some dropoff |} ].
Proof. reflexivity. Qed.

(** C6. [generateTruckSteps] on the parcels [(1, 3)], [(2, 5)] and the path
    [1, 2, 3, 4, 5] succeeds with the steps, in order: 1 pickup, 2 pickup,
    3 dropoff, 4 without action, 5 dropoff. *)
Theorem generateTruckSteps_exemple_1 :
  generateTruckSteps
    [ {| pickupAddress := 1; dropoffAddress := 3 |};
      {| pickupAddress := 2; dropoffAddress := 5 |} ] [1; 2; 3; 4; 5]
  = Normal (success
      [ Some {| address := 1; action := Some pickup |};
        Some {| address := 2; action := Some pickup |};
        Some {| address := 3; action := Some dropoff |};
        Some {| address := 4; action := None |};
        Some {| address := 5; action := Some dropoff |} ]).
Proof. vm_compute. reflexivity. Qed.

(** C8. For every non-empty sequence of parcels and every truck path,
    [generateTruckSteps] never returns the fallback outcome, the error with the
    code [unknown_error] and the message "Unknown error": whenever the check
    [parcelsAreAllDeliverable] fails, [find] locates a first failure, and no
    outcome carries the code [unknown_error]. *)
Theorem generateTruckSteps_never_unknown
  (deliveries : Deliveries) (truckPath : TruckPath) :
  deliveries <> [] ->
  let maybeSteps :=
    map (fun parcel => parcelCanBeDelivered parcel truckPath) deliveries in
  (parcelsAreAllDeliverable maybeSteps = false ->
   exists e, find (fun tuple => Bool.eqb (tag tuple) false) maybeSteps =
             Some (Undeliverable e)) /\
  generateTruckSteps deliveries truckPath <>
  Normal (error {| error_code := unknown_error;
                   error_message := "Unknown error" |}) /\
  (forall e, generateTruckSteps deliveries truckPath = Normal (error e) ->
             error_code e <> unknown_error).
Proof.
  intros _ maybeSteps. split; [|split].
  - intros Hnot. subst maybeSteps.
    destruct (first_infeasible truckPath deliveries)
      as [Hall|(b & q & a & -> & Hb & Hq)].
    + rewrite (all_deliverable _ _ Hall) in Hnot. discriminate.
    + destruct (infeasible_error _ q Hq) as (e & He & _).
      exists e. now apply first_failure.
  - intros H. now apply generateTruckSteps_error_code in H.
  - apply generateTruckSteps_error_code.
Qed.

Lemma generateTruckSteps_never_unknown_witness :
  generateTruckSteps [ {| pickupAddress := 1; dropoffAddress := 2 |} ] [2] <>
  Normal (error {| error_code := unknown_error;
                   error_message := "Unknown error" |}).
Proof.
  refine (proj1 (proj2 (generateTruckSteps_never_unknown
            [ {| pickupAddress := 1; dropoffAddress := 2 |} ] [2] _))).
  discriminate.
Defined.

Lemma flat_stepPair_length (deliveries : Deliveries) :
  List.length (flat_map stepPair deliveries) =
  (2 * List.length deliveries)%nat.
Proof.
  induction deliveries as [|p r IH]; simpl; [reflexivity|].
  rewrite IH. lia.
Qed.

Lemma flat_stepPair_actions (deliveries : Deliveries) :
  Forall (fun x => isPassThrough x = false) (flat_map stepPair deliveries).
Proof.
  induction deliveries as [|p r IH]; simpl; repeat constructor. exact IH.
Qed.

Lemma fullSteps_length (deliveries : Deliveries) :
  let fullSteps :=
    fillGaps (sortByAddress (flat_map stepPair deliveries)) in
  List.length fullSteps =
  (2 * List.length deliveries + passThroughCount fullSteps)%nat.
Proof.
  cbn zeta. rewrite fillGaps_length.
  - now rewrite sortByAddress_length, flat_stepPair_length.
  - eapply Permutation_Forall;
      [apply sortByAddress_perm | apply flat_stepPair_actions].
Qed.

(** What [find] yields for the target address [trackId]. *)
Lemma find_addressIs (fullSteps : list Step) (trackId : option Z) :
  match trackId with
  | None => find (addressIs trackId) fullSteps = None
  | Some a =>
      (find (addressIs trackId) fullSteps = None /\
       forall s, In s fullSteps -> address s <> a) \/
      (exists s, find (addressIs trackId) fullSteps = Some s /\
                 In s fullSteps /\ address s = a)
  end.
Proof.
  destruct trackId as [a|].
  - destruct (find (addressIs (Some a)) fullSteps) as [s|] eqn:Hfind.
    + right. exists s. apply find_some in Hfind. destruct Hfind as [Hin Ha].
      repeat split; trivial. now apply Z.eqb_eq in Ha.
    + left. split; [reflexivity|]. intros s Hin.
      apply (find_none _ _ Hfind) in Hin. now apply Z.eqb_neq in Hin.
  - induction fullSteps as [|s r IH]; [reflexivity | exact IH].
Qed.

(** C9. For every input on which all parcels are feasible, their addresses in
    the safe range, the steps of the
    success outcome are as many as the gap-filled steps, that is twice the
    number of parcels plus the number of pass-through steps inserted, whatever
    the length of the truck path; and the entry at every index [i] is absent
    when [i] is past the end of the truck path or no gap-filled step has the
    address [truckPath[i]], and otherwise is a step of address
    [truckPath[i]]. *)
Theorem generateTruckSteps_steps_shape
  (deliveries : Deliveries) (truckPath : TruckPath) :
  Forall safeParcel deliveries ->
  Forall (feasible truckPath) deliveries ->
  let fullSteps :=
    fillGaps (sortByAddress (flat_map stepPair deliveries)) in
  exists steps : list (option Step),
    generateTruckSteps deliveries truckPath = Normal (success steps) /\
    List.length steps = List.length fullSteps /\
    List.length steps =
    (2 * List.length deliveries + passThroughCount fullSteps)%nat /\
    forall i, (i < List.length steps)%nat ->
      match nth_error truckPath i with
      | None => nth_error steps i = Some None
      | Some a =>
          (nth_error steps i = Some None /\
           forall s, In s fullSteps -> address s <> a) \/
          (exists s, nth_error steps i = Some (Some s) /\
                     In s fullSteps /\ address s = a)
      end.
Proof.
  intros _ Hall fullSteps. exists (reorder fullSteps truckPath).
  split; [now apply generateTruckSteps_success|].
  split; [apply reorder_length|].
  split; [rewrite reorder_length; apply fullSteps_length|].
  intros i Hi. rewrite reorder_length in Hi.
  rewrite (reorder_nth _ _ _ Hi).
  pose proof (find_addressIs fullSteps (nth_error truckPath i)) as Hfind.
  destruct (nth_error truckPath i) as [a|].
  - destruct Hfind as [[Hnone Hno]|(s & Hs & Hin & Ha)].
    + left. rewrite Hnone. now split.
    + right. exists s. rewrite Hs. now repeat split.
  - now rewrite Hfind.
Qed.

Lemma generateTruckSteps_steps_shape_witness :
  exists steps : list (option Step),
    generateTruckSteps
      [ {| pickupAddress := 1; dropoffAddress := 3 |};
        {| pickupAddress := 1; dropoffAddress := 3 |} ] [1; 9; 3]
    = Normal (success steps) /\
    List.length steps = 5%nat /\
    nth_error steps 0 = Some (Some {| address := 1; action := Some pickup |}) /\
    nth_error steps 1 = Some None /\
    nth_error steps 3 = Some None.
Proof.
  pose (deliveries := [ {| pickupAddress := 1; dropoffAddress := 3 |};
                        {| pickupAddress := 1; dropoffAddress := 3 |} ]).
  pose (truckPath := [1; 9; 3]).
  assert (Hall : Forall (feasible truckPath) deliveries)
    by (repeat constructor).
  assert (Hsafe : Forall safeParcel deliveries) by safe_range.
  destruct (generateTruckSteps_steps_shape deliveries truckPath Hsafe Hall)
    as (steps & Hrun & _ & Hlen & _).
  exists steps. split; [exact Hrun|].
  split; [exact Hlen|].
  assert (E : Normal (success steps) =
              Normal (success
                [ Some {| address := 1; action := Some pickup |}; None;
                  Some {| address := 3; action := Some dropoff |};
                  None; None ]))
    by (rewrite <- Hrun; reflexivity).
  injection E as ->. repeat split.
Defined.

(** * Properties of the entry point *)

Lemma ParcelFromTuple_throws (tuple : JSON) (e : Exception) :
  ParcelFromTuple tuple = Throw e -> tuple = JNull /\ e = TypeError.
Proof.
  destruct tuple; cbn; try discriminate. now intros [= <-].
Qed.

(** Mapping the tuples throws only on a [null] element. *)
Lemma mapM_ParcelFromTuple (elements : list JSON) :
  (~ In JNull elements ->
   exists deliveries, mapM ParcelFromTuple elements = Normal deliveries) /\
  (In JNull elements -> mapM ParcelFromTuple elements = Throw TypeError).
Proof.
  induction elements as [|x r [IHok IHnull]]; split.
  - intros _. now exists [].
  - intros [].
  - intros Hni. destruct IHok as [ds Hds].
    + intros Hin. apply Hni. now right.
    + cbn [mapM]. rewrite Hds.
      destruct (ParcelFromTuple x) as [p|e] eqn:Hx.
      * now exists (p :: ds).
      * apply ParcelFromTuple_throws in Hx. destruct Hx as [-> _].
        exfalso. apply Hni. now left.
  - intros Hin. cbn [mapM].
    destruct (ParcelFromTuple x) as [p|e] eqn:Hx.
    + destruct Hin as [->|Hin]; [discriminate Hx|].
      cbn [bind]. now rewrite (IHnull Hin).
    + apply ParcelFromTuple_throws in Hx. now destruct Hx as [_ ->].
Qed.

(** C7, as the code has it.  [main] returns 1 when one or both arguments are
    missing (or empty).  Otherwise, when argument 1 is well-formed JSON, it
    returns 2 when the decoded value is not an array or is an empty array;
    and when moreover the mapping of the tuples completes and argument 2 is
    well-formed JSON, it returns 2 when the mapped parcels fail the validation
    [isDeliveries], 4 when they pass it and the decoded argument 2 fails
    [isTruckPath], and 0 on valid input.  Malformed JSON is given no code:
    the exception of [JSON.parse] leaves [main], as does the exception of the
    mapping. *)
Theorem main_exit_codes (argv2 argv3 : option Argument) :
  (isFalsy argv2 || isFalsy argv3 = true ->
   exitCode (main argv2 argv3) = Normal 1) /\
  (isFalsy argv2 || isFalsy argv3 = false ->
   (forall e, JSON_parse argv2 = Throw e ->
              exitCode (main argv2 argv3) = Throw e) /\
   (forall rawDeliveries,
       JSON_parse argv2 = Normal rawDeliveries ->
       isNonEmptyArray rawDeliveries = false ->
       exitCode (main argv2 argv3) = Normal 2) /\
   (forall elements,
       JSON_parse argv2 = Normal (JArray elements) ->
       elements <> [] ->
       (forall e, mapM ParcelFromTuple elements = Throw e ->
                  exitCode (main argv2 argv3) = Throw e) /\
       (forall deliveries,
           mapM ParcelFromTuple elements = Normal deliveries ->
           (forall e, JSON_parse argv3 = Throw e ->
                      exitCode (main argv2 argv3) = Throw e) /\
           (forall truckPath,
               JSON_parse argv3 = Normal truckPath ->
               (isDeliveries deliveries = false ->
                exitCode (main argv2 argv3) = Normal 2) /\
               (isDeliveries deliveries = true ->
                isTruckPath truckPath = false ->
                exitCode (main argv2 argv3) = Normal 4) /\
               (isDeliveries deliveries = true ->
                isTruckPath truckPath = true ->
                exitCode (main argv2 argv3) = Normal 0))))).
Proof.
  unfold exitCode, main; cbn zeta.
  destruct (isFalsy argv2 || isFalsy argv3).
  { split; [reflexivity | discriminate]. }
  split; [discriminate|]. intros _.
  split; [|split].
  - intros e ->. reflexivity.
  - intros rawDeliveries -> Hshape.
    destruct rawDeliveries as [| | | |[|x r]|]; try reflexivity.
    discriminate Hshape.
  - intros elements -> Hne.
    destruct elements as [|x r]; [congruence|].
    split.
    + intros e ->. reflexivity.
    + intros deliveries ->. split.
      * intros e ->. reflexivity.
      * intros truckPath ->. split; [|split].
        -- intros ->. reflexivity.
        -- intros -> ->. reflexivity.
        -- intros -> ->. cbn [negb].
           destruct (generateTruckSteps_total (asTruckPath truckPath)
                       (map asParcel deliveries)) as [out ->].
           reflexivity.
Qed.

(** Malformed JSON is answered neither by the code 2 (argument 1) nor by the
    code 4 (argument 2): [JSON.parse] throws and [main] returns no code. *)
Lemma main_malformed_JSON_throws :
  (exitCode
     (main (Some (malformed "[[1, 2"))
           (Some (wellFormed "[1, 2]" (JArray [JNumber 1; JNumber 2]))))
   = Throw SyntaxError /\
   exitCode
     (main (Some (malformed "[[1, 2"))
           (Some (wellFormed "[1, 2]" (JArray [JNumber 1; JNumber 2]))))
   <> Normal 2) /\
  (exitCode
     (main (Some (wellFormed "[[1, 2]]"
                    (JArray [JArray [JNumber 1; JNumber 2]])))
           (Some (malformed "[1, 2")))
   = Throw SyntaxError /\
   exitCode
     (main (Some (wellFormed "[[1, 2]]"
                    (JArray [JArray [JNumber 1; JNumber 2]])))
           (Some (malformed "[1, 2")))
   <> Normal 4).
Proof. repeat split; discriminate. Qed.

(** The four runs of the test suite, by the theorem. *)
Lemma main_exit_codes_witness :
  exitCode (main None None) = Normal 1 /\
  exitCode (main (Some (wellFormed "1" (JNumber 1)))
                 (Some (wellFormed "2" (JNumber 2)))) = Normal 2 /\
  exitCode (main (Some (wellFormed "[[1, 2]]"
                          (JArray [JArray [JNumber 1; JNumber 2]])))
                 (Some (wellFormed "2" (JNumber 2)))) = Normal 4 /\
  exitCode (main (Some (wellFormed "[[1, 2]]"
                          (JArray [JArray [JNumber 1; JNumber 2]])))
                 (Some (wellFormed "[1, 2]"
                          (JArray [JNumber 1; JNumber 2])))) = Normal 0.
Proof.
  split; [|split; [|split]].
  - exact (proj1 (main_exit_codes None None) eq_refl).
  - destruct (main_exit_codes (Some (wellFormed "1" (JNumber 1)))
                (Some (wellFormed "2" (JNumber 2)))) as [_ H].
    destruct (H eq_refl) as (_ & H2 & _).
    exact (H2 (JNumber 1) eq_refl eq_refl).
  - destruct (main_exit_codes
                (Some (wellFormed "[[1, 2]]"
                         (JArray [JArray [JNumber 1; JNumber 2]])))
                (Some (wellFormed "2" (JNumber 2)))) as [_ H].
    destruct (H eq_refl) as (_ & _ & H3).
    assert (Hne : [JArray [JNumber 1; JNumber 2]] <> []) by discriminate.
    destruct (H3 _ eq_refl Hne) as [_ H4].
    destruct (H4 _ eq_refl) as [_ H5].
    destruct (H5 (JNumber 2) eq_refl) as (_ & H6 & _).
    exact (H6 eq_refl eq_refl).
  - destruct (main_exit_codes
                (Some (wellFormed "[[1, 2]]"
                         (JArray [JArray [JNumber 1; JNumber 2]])))
                (Some (wellFormed "[1, 2]"
                         (JArray [JNumber 1; JNumber 2])))) as [_ H].
    destruct (H eq_refl) as (_ & _ & H3).
    assert (Hne : [JArray [JNumber 1; JNumber 2]] <> []) by discriminate.
    destruct (H3 _ eq_refl Hne) as [_ H4].
    destruct (H4 _ eq_refl) as [_ H5].
    destruct (H5 (JArray [JNumber 1; JNumber 2]) eq_refl) as (_ & _ & H7).
    exact (H7 eq_refl eq_refl).
Defined.

(** * Further properties of the feasibility check *)

Lemma check_dropoff_missing (parcel : Parcel) (truckPath : TruckPath) :
  In (pickupAddress parcel) truckPath ->
  ~ In (dropoffAddress parcel) truckPath ->
  parcelCanBeDelivered parcel truckPath =
  Undeliverable
    {| error_code := dropoff_address_not_in_path;
       error_message :=
         ("Dropoff address " ++ numberToString (dropoffAddress parcel)
          ++ " not in path")%string |}.
Proof.
  intros Hp Hd. apply In_first_occurrence in Hp. destruct Hp as [i Hi].
  unfold parcelCanBeDelivered.
  rewrite (indexOf_first _ _ _ Hi), (indexOf_absent _ _ Hd).
  destruct (Z.eqb_spec (Z.of_nat i) (-1)); [lia | reflexivity].
Qed.

Lemma check_cases (parcel : Parcel) (truckPath : TruckPath) :
  CheckCase parcel truckPath.
Proof.
  destruct (in_dec Z.eq_dec (pickupAddress parcel) truckPath) as [Hp|Hp].
  2:{ apply PickupAbsent; [exact Hp|].
      eexists. now apply check_pickup_absent. }
  destruct (in_dec Z.eq_dec (dropoffAddress parcel) truckPath) as [Hd|Hd].
  2:{ apply DropoffAbsent; trivial.
      eexists. now apply check_dropoff_missing. }
  destruct (In_first_occurrence _ _ Hp) as [i Hi].
  destruct (In_first_occurrence _ _ Hd) as [j Hj].
  pose proof (check_both_present parcel truckPath i j Hi Hj) as Hrun.
  destruct (Nat.ltb_spec j i) as [Hlt|Hge].
  - apply (DropoffFirst _ _ i j); trivial. eexists. exact Hrun.
  - apply (InOrder _ _ i j); trivial. now rewrite Hrun.
Qed.

(** X1. When the pickup address occurs in the path and the dropoff address,
    in the safe range, does not, [parcelCanBeDelivered] fails with the code
    [dropoff_address_not_in_path] and the message "Dropoff address
    {dropoffAddress} not in path". *)
Theorem parcelCanBeDelivered_dropoff_absent
  (parcel : Parcel) (truckPath : TruckPath) :
  safeAddress (dropoffAddress parcel) ->
  In (pickupAddress parcel) truckPath ->
  ~ In (dropoffAddress parcel) truckPath ->
  parcelCanBeDelivered parcel truckPath =
  Undeliverable
    {| error_code := dropoff_address_not_in_path;
       error_message :=
         ("Dropoff address " ++ numberToString (dropoffAddress parcel)
          ++ " not in path")%string |}.
Proof. intros _. apply check_dropoff_missing. Qed.

Lemma parcelCanBeDelivered_dropoff_absent_witness :
  safeAddress 2 /\ In 1 [1] /\ ~ In 2 [1] /\
  parcelCanBeDelivered {| pickupAddress := 1; dropoffAddress := 2 |} [1] =
  Undeliverable
    {| error_code := dropoff_address_not_in_path;
       error_message := "Dropoff address 2 not in path" |}.
Proof.
  assert (Hp : In 1 [1]) by now left.
  assert (Hd : ~ In 2 [1]) by (intros [E|[]]; discriminate E).
  assert (Hs : safeAddress 2) by safe_range.
  split; [exact Hs | split; [exact Hp | split; [exact Hd|]]].
  exact (parcelCanBeDelivered_dropoff_absent
           {| pickupAddress := 1; dropoffAddress := 2 |} [1] Hs Hp Hd).
Defined.

(** X2. [parcelCanBeDelivered] succeeds exactly when the pickup address and
    the dropoff address both occur in the path and the first occurrence of the
    pickup address is not after the first occurrence of the dropoff address. *)
Theorem parcelCanBeDelivered_succeeds_iff
  (parcel : Parcel) (truckPath : TruckPath) :
  tag (parcelCanBeDelivered parcel truckPath) = true <->
  exists i j : nat,
    first_occurrence truckPath (pickupAddress parcel) i /\
    first_occurrence truckPath (dropoffAddress parcel) j /\
    (i <= j)%nat.
Proof.
  split.
  - intros Hok.
    destruct (check_cases parcel truckPath)
      as [_ [m Hm]|_ _ [m Hm]|i j _ _ _ [m Hm]|i j Hi Hj Hij _];
      try (rewrite Hm in Hok; discriminate Hok).
    now exists i, j.
  - intros (i & j & Hi & Hj & Hij).
    rewrite (check_both_present _ _ i j Hi Hj).
    destruct (Nat.ltb_spec j i); [lia | reflexivity].
Qed.

(** X3. The code of a failure tells its cause: [delivery_address_not_in_path]
    exactly when the pickup address is not in the path,
    [dropoff_address_not_in_path] exactly when the pickup address is in the
    path and the dropoff address is not, [delivery_dropoff_before_pickup]
    exactly when both are in the path and the dropoff address occurs first;
    and the check itself never answers [unknown_error]. *)
Theorem parcelCanBeDelivered_error_cause
  (parcel : Parcel) (truckPath : TruckPath) (e : Error) :
  parcelCanBeDelivered parcel truckPath = Undeliverable e ->
  (error_code e = delivery_address_not_in_path <->
   ~ In (pickupAddress parcel) truckPath) /\
  (error_code e = dropoff_address_not_in_path <->
   In (pickupAddress parcel) truckPath /\
   ~ In (dropoffAddress parcel) truckPath) /\
  (error_code e = delivery_dropoff_before_pickup <->
   exists i j : nat,
     first_occurrence truckPath (pickupAddress parcel) i /\
     first_occurrence truckPath (dropoffAddress parcel) j /\
     (j < i)%nat) /\
  error_code e <> unknown_error.
Proof.
  intros He.
  destruct (check_cases parcel truckPath)
    as [Hp [m Hm]|Hp Hd [m Hm]|i j Hi Hj Hji [m Hm]|i j Hi Hj Hij Hok].
  - rewrite Hm in He. injection He as <-. cbn [error_code].
    repeat split; try discriminate; try tauto.
    intros (i & j & Hi & _). elim Hp. eapply first_occurrence_In, Hi.
  - rewrite Hm in He. injection He as <-. cbn [error_code].
    repeat split; try discriminate; try tauto.
    intros (i & j & _ & Hj & _). elim Hd. eapply first_occurrence_In, Hj.
  - rewrite Hm in He. injection He as <-. cbn [error_code].
    pose proof (first_occurrence_In _ _ _ Hi) as Hp.
    pose proof (first_occurrence_In _ _ _ Hj) as Hd.
    repeat split; try discriminate; try tauto.
    intros _. now exists i, j.
  - rewrite He in Hok. discriminate Hok.
Qed.

Lemma parcelCanBeDelivered_error_cause_witness :
  error_code
    {| error_code := delivery_dropoff_before_pickup;
       error_message := "Dropoff address 2 before pickup address 1" |}
  = delivery_dropoff_before_pickup <->
  exists i j : nat,
    first_occurrence [2; 1] 1 i /\ first_occurrence [2; 1] 2 j /\ (j < i)%nat.
Proof.
  refine (proj1 (proj2 (proj2
    (parcelCanBeDelivered_error_cause
       {| pickupAddress := 1; dropoffAddress := 2 |} [2; 1] _ eq_refl)))).
Defined.

(** X4. A parcel picked up and dropped off at the same address is deliverable
    as soon as that address is in the path: the outcome is the pickup step and
    the dropoff step, both at that address. *)
Theorem parcelCanBeDelivered_same_address
  (parcel : Parcel) (truckPath : TruckPath) :
  pickupAddress parcel = dropoffAddress parcel ->
  In (pickupAddress parcel) truckPath ->
  parcelCanBeDelivered parcel truckPath =
  Deliverable
    ({| address := pickupAddress parcel; action := Some pickup |},
     {| address := pickupAddress parcel; action := Some dropoff |}).
Proof.
  intros Heq Hin. destruct (In_first_occurrence _ _ Hin) as [i Hi].
  assert (Hj : first_occurrence truckPath (dropoffAddress parcel) i)
    by now rewrite <- Heq.
  rewrite (check_both_present _ _ i i Hi Hj), Nat.ltb_irrefl.
  now rewrite <- Heq.
Qed.

Lemma parcelCanBeDelivered_same_address_witness :
  parcelCanBeDelivered {| pickupAddress := 4; dropoffAddress := 4 |} [3; 4] =
  Deliverable ({| address := 4; action := Some pickup |},
               {| address := 4; action := Some dropoff |}).
Proof.
  apply (parcelCanBeDelivered_same_address
           {| pickupAddress := 4; dropoffAddress := 4 |} [3; 4]).
  - reflexivity.
  - right. now left.
Defined.

(** * Further properties of the aggregator *)

Section GapFillRelations.

Lemma fillGaps_head (b : Step) (r : list Step) :
  exists tl, fillGaps (b :: r) = b :: tl.
Proof.
  cbn [fillGaps]. destruct r as [|c r']; [now exists []|].
  destruct (address c =? address b + 2); eexists; reflexivity.
Qed.

(** How a relation between adjacent steps goes through the gap filling. *)
Variables R R' : Step -> Step -> Prop.

Hypothesis filled :
  forall a b, R a b -> address b = address a + 2 ->
              R' a (passThrough a) /\ R' (passThrough a) b.

Hypothesis kept :
  forall a b, R a b -> address b <> address a + 2 -> R' a b.

Lemma fillGaps_Sorted (s : list Step) :
  Sorted R s -> Sorted R' (fillGaps s).
Proof.
  induction s as [|a r IH]; intros Hs; [constructor|].
  inversion Hs as [|? ? Hr Hhd]; subst. specialize (IH Hr).
  destruct r as [|b r']; [repeat constructor|].
  inversion Hhd as [|? ? Hab]; subst.
  destruct (fillGaps_head b r') as [tl Htl].
  cbn [fillGaps] in *. rewrite Htl in IH.
  destruct (Z.eqb_spec (address b) (address a + 2)) as [Hgap|Hno];
    rewrite Htl.
  - destruct (filled a b Hab Hgap) as [H1 H2].
    constructor; [|constructor; exact H1].
    constructor; [exact IH | constructor; exact H2].
  - constructor; [exact IH|]. constructor. now apply kept.
Qed.

End GapFillRelations.

Lemma fillGaps_actions (s : list Step) :
  filter (fun x => negb (isPassThrough x)) (fillGaps s) =
  filter (fun x => negb (isPassThrough x)) s.
Proof.
  induction s as [|a r IH]; [reflexivity|].
  cbn [fillGaps]. destruct r as [|b r']; [reflexivity|].
  destruct (address b =? address a + 2); cbn [filter];
    cbn [filter] in IH; rewrite IH; cbn; reflexivity.
Qed.

Lemma filter_all {A : Type} (f : A -> bool) (l : list A) :
  Forall (fun x => f x = true) l -> filter f l = l.
Proof.
  induction 1 as [|x r Hx _ IH]; simpl; [reflexivity|].
  now rewrite Hx, IH.
Qed.

(** X5. [generateTruckSteps] never throws: in the [reduce], [steps[i + 1]] is
    read only when [i] is not the last index, so it is never [undefined],
    whatever array is reduced. *)
Theorem generateTruckSteps_never_throws
  (deliveries : Deliveries) (truckPath : TruckPath) :
  (forall steps : list Step,
      exists fullSteps, reduce (addMissing steps) steps [] = Normal fullSteps)
  /\
  (forall e, generateTruckSteps deliveries truckPath <> Throw e).
Proof.
  split.
  - intros steps. eexists. apply reduce_addMissing.
  - intros e. destruct (generateTruckSteps_total truckPath deliveries)
      as [out ->]. discriminate.
Qed.

(** X6. [generateTruckSteps] succeeds exactly when every parcel is feasible,
    and answers an error exactly when some parcel is infeasible; the error it
    answers is the error of the check of one of the parcels. *)
Theorem generateTruckSteps_success_iff
  (deliveries : Deliveries) (truckPath : TruckPath) :
  ((exists steps, generateTruckSteps deliveries truckPath =
                  Normal (success steps)) <->
   Forall (feasible truckPath) deliveries) /\
  ((exists e, generateTruckSteps deliveries truckPath = Normal (error e)) <->
   Exists (fun parcel => ~ feasible truckPath parcel) deliveries) /\
  (forall e, generateTruckSteps deliveries truckPath = Normal (error e) ->
             exists parcel, In parcel deliveries /\
               parcelCanBeDelivered parcel truckPath = Undeliverable e).
Proof.
  destruct (first_infeasible truckPath deliveries)
    as [Hall|(b & q & a & -> & Hb & Hq)].
  - pose proof (generateTruckSteps_success _ _ Hall) as Hrun.
    split; [|split].
    + split; [trivial | intros _; eexists; exact Hrun].
    + split.
      * intros [e He]. rewrite Hrun in He. discriminate.
      * intros Hex. apply Exists_exists in Hex.
        destruct Hex as (p & Hin & Hp). rewrite Forall_forall in Hall.
        now elim Hp; apply Hall.
    + intros e He. rewrite Hrun in He. discriminate.
  - destruct (infeasible_error _ q Hq) as (e & He & _).
    pose proof (generateTruckSteps_failure _ b a q e Hb He) as Hrun.
    assert (Hin : In q (b ++ q :: a)) by (apply in_elt).
    split; [|split].
    + split.
      * intros [steps Hs]. rewrite Hrun in Hs. discriminate.
      * intros Hall. rewrite Forall_forall in Hall. now elim Hq; apply Hall.
    + split; [|intros _; eexists; exact Hrun].
      intros _. apply Exists_exists. now exists q.
    + intros e' He'. rewrite Hrun in He'. injection He' as <-. now exists q.
Qed.

(** X7. The empty inputs.  With no parcel at all, [generateTruckSteps]
    succeeds with no step, whatever the truck path; with an empty truck path
    and at least one parcel, it answers that the pickup address of the first
    parcel (in the safe range) is not in the path. *)
Theorem generateTruckSteps_empty_inputs :
  (forall truckPath : TruckPath,
      generateTruckSteps [] truckPath = Normal (success [])) /\
  (forall (parcel : Parcel) (others : Deliveries),
      safeAddress (pickupAddress parcel) ->
      generateTruckSteps (parcel :: others) [] =
      Normal (error
        {| error_code := delivery_address_not_in_path;
           error_message :=
             ("Delivery address " ++ numberToString (pickupAddress parcel)
              ++ " not in path")%string |})).
Proof.
  split; [reflexivity|].
  intros parcel others _.
  apply (generateTruckSteps_failure [] [] others parcel); [constructor|].
  apply check_pickup_absent. intros [].
Qed.

Lemma generateTruckSteps_empty_inputs_witness :
  generateTruckSteps
    [ {| pickupAddress := 1; dropoffAddress := 2 |};
      {| pickupAddress := 3; dropoffAddress := 4 |} ] [] =
  Normal (error {| error_code := delivery_address_not_in_path;
                   error_message := "Delivery address 1 not in path" |}).
Proof.
  apply (proj2 generateTruckSteps_empty_inputs
           {| pickupAddress := 1; dropoffAddress := 2 |}
           [ {| pickupAddress := 3; dropoffAddress := 4 |} ]).
  safe_range.
Defined.

(** X8. The gap filling keeps the order: when [steps] is ascending by address,
    so is the array the [reduce] returns. *)
Theorem addMissing_keeps_ascending (steps : list Step) :
  Sorted address_le steps ->
  exists fullSteps,
    reduce (addMissing steps) steps [] = Normal fullSteps /\
    Sorted address_le fullSteps.
Proof.
  intros Hs. exists (fillGaps steps). split; [apply reduce_addMissing|].
  apply (fillGaps_Sorted address_le address_le); trivial;
    unfold address_le, passThrough; cbn [address]; intros; lia.
Qed.

Lemma addMissing_keeps_ascending_witness :
  exists fullSteps,
    reduce
      (addMissing [ {| address := 1; action := Some pickup |};
                    {| address := 3; action := Some dropoff |} ])
      [ {| address := 1; action := Some pickup |};
        {| address := 3; action := Some dropoff |} ] [] = Normal fullSteps /\
    Sorted address_le fullSteps.
Proof.
  apply addMissing_keeps_ascending.
  repeat constructor. unfold address_le. cbn. lia.
Defined.

(** X9. The gap filling only adds steps without action: the steps with an
    action are, in the array the [reduce] returns, the steps it was given, in
    the same order. *)
Theorem addMissing_keeps_steps (steps : list Step) :
  Forall (fun s => action s <> None) steps ->
  exists fullSteps,
    reduce (addMissing steps) steps [] = Normal fullSteps /\
    filter (fun s => negb (isPassThrough s)) fullSteps = steps.
Proof.
  intros Hact. exists (fillGaps steps). split; [apply reduce_addMissing|].
  rewrite fillGaps_actions. apply filter_all.
  eapply Forall_impl; [|exact Hact].
  intros s Hs. unfold isPassThrough.
  destruct (action s) eqn:E; [reflexivity | contradiction].
Qed.

Lemma addMissing_keeps_steps_witness :
  exists fullSteps,
    reduce
      (addMissing [ {| address := 1; action := Some pickup |};
                    {| address := 3; action := Some dropoff |} ])
      [ {| address := 1; action := Some pickup |};
        {| address := 3; action := Some dropoff |} ] [] = Normal fullSteps /\
    filter (fun s => negb (isPassThrough s)) fullSteps =
    [ {| address := 1; action := Some pickup |};
      {| address := 3; action := Some dropoff |} ].
Proof.
  apply addMissing_keeps_steps.
  repeat constructor; discriminate.
Defined.

(** X10. The gap filling closes the gaps of one address: when the addresses
    are in the safe range and adjacent steps are at most two addresses apart, adjacent steps of the array the [reduce]
    returns are at most one address apart. *)
Theorem addMissing_closes_unit_gaps (steps : list Step) :
  Forall (fun s => safeAddress (address s)) steps ->
  Sorted (within 2) steps ->
  exists fullSteps,
    reduce (addMissing steps) steps [] = Normal fullSteps /\
    Sorted (within 1) fullSteps.
Proof.
  intros _ Hs. exists (fillGaps steps). split; [apply reduce_addMissing|].
  apply (fillGaps_Sorted (within 2) (within 1)); trivial;
    unfold within, passThrough; cbn [address]; intros; lia.
Qed.

Lemma addMissing_closes_unit_gaps_witness :
  exists fullSteps,
    reduce
      (addMissing [ {| address := 1; action := Some pickup |};
                    {| address := 3; action := Some dropoff |} ])
      [ {| address := 1; action := Some pickup |};
        {| address := 3; action := Some dropoff |} ] [] = Normal fullSteps /\
    Sorted (within 1) fullSteps.
Proof.
  apply addMissing_closes_unit_gaps.
  - safe_range.
  - repeat constructor; unfold within; cbn; lia.
Defined.

(** ** What the lookup by address finds *)

Lemma find_hd_filter {A : Type} (f : A -> bool) (l : list A) :
  find f l = hd_error (filter f l).
Proof.
  induction l as [|x r IH]; simpl; [reflexivity|].
  now destruct (f x).
Qed.

Lemma existsb_filter {A : Type} (f : A -> bool) (l : list A) :
  existsb f l = match filter f l with [] => false | _ :: _ => true end.
Proof.
  induction l as [|x r IH]; simpl; [reflexivity|].
  now destruct (f x).
Qed.

Lemma find_above (b : Z) (y : Step) (r : list Step) :
  b < address y -> Forall (address_le y) r ->
  find (atAddress b) (y :: r) = None /\ existsb (atAddress b) (y :: r) = false.
Proof.
  intros Hlt Hall.
  rewrite find_hd_filter, existsb_filter, (filter_below b y r Hlt Hall).
  now split.
Qed.

(** In an ascending sequence that has been gap-filled, the first step at the
    address [a] is the first step given at [a]; when none was given, it is the
    pass-through step at [a] if steps were given at [a - 1] and at [a + 1],
    and there is none otherwise. *)
Lemma find_fillGaps (a : Z) (s : list Step) :
  StronglySorted address_le s ->
  find (atAddress a) (fillGaps s) =
  match find (atAddress a) s with
  | Some x => Some x
  | None =>
      if existsb (atAddress (a - 1)) s && existsb (atAddress (a + 1)) s
      then Some {| address := a; action := None |}
      else None
  end.
Proof.
  induction 1 as [|x r Hr IH Hx]; [reflexivity|].
  destruct r as [|y r'].
  { cbn. unfold atAddress.
    destruct (Z.eqb_spec (address x) a); [reflexivity|].
    destruct (Z.eqb_spec (address x) (a - 1)),
             (Z.eqb_spec (address x) (a + 1)); try reflexivity; lia. }
  assert (Hxy : address x <= address y) by (now inversion Hx).
  assert (Hy : Forall (address_le y) r')
    by (now inversion Hr).
  set (F := find (atAddress a) (y :: r')).
  set (E1 := existsb (atAddress (a - 1)) (y :: r')).
  set (E2 := existsb (atAddress (a + 1)) (y :: r')).
  assert (HF : forall z, F = Some z -> address y <= a).
  { intros z Hz. destruct (Z.le_gt_cases (address y) a) as [|Hlt]; trivial.
    destruct (find_above a y r') as [HN _]; [lia | exact Hy |].
    unfold F in Hz. congruence. }
  assert (HF' : F = None -> address y <> a).
  { intros HN Heq. unfold F in HN. cbn in HN. rewrite <- Heq in HN.
    rewrite atAddress_own in HN. discriminate. }
  assert (H1 : E1 = true -> address y <= a - 1).
  { intros Ht. destruct (Z.le_gt_cases (address y) (a - 1)) as [|Hlt]; trivial.
    destruct (find_above (a - 1) y r') as [_ HN]; [lia | exact Hy |].
    unfold E1 in Ht. congruence. }
  assert (H1' : E1 = false -> address y <> a - 1).
  { intros HN Heq. unfold E1 in HN. cbn in HN. rewrite <- Heq in HN.
    rewrite atAddress_own in HN. discriminate. }
  assert (H2 : E2 = true -> address y <= a + 1).
  { intros Ht. destruct (Z.le_gt_cases (address y) (a + 1)) as [|Hlt]; trivial.
    destruct (find_above (a + 1) y r') as [_ HN]; [lia | exact Hy |].
    unfold E2 in Ht. congruence. }
  assert (H2' : E2 = false -> address y <> a + 1).
  { intros HN Heq. unfold E2 in HN. cbn in HN. rewrite <- Heq in HN.
    rewrite atAddress_own in HN. discriminate. }
  change (fillGaps (x :: y :: r')) with
    (if address y =? address x + 2
     then x :: passThrough x :: fillGaps (y :: r')
     else x :: fillGaps (y :: r')).
  change (find (atAddress a) (x :: y :: r')) with
    (if atAddress a x then Some x else F).
  change (existsb (atAddress (a - 1)) (x :: y :: r')) with
    (atAddress (a - 1) x || E1).
  change (existsb (atAddress (a + 1)) (x :: y :: r')) with
    (atAddress (a + 1) x || E2).
  assert (Hfill :
    find (atAddress a)
      (if address y =? address x + 2
       then x :: passThrough x :: fillGaps (y :: r')
       else x :: fillGaps (y :: r')) =
    if atAddress a x then Some x
    else if (address y =? address x + 2) && (address x + 1 =? a)
         then Some (passThrough x)
         else find (atAddress a) (fillGaps (y :: r'))).
  { destruct (address y =? address x + 2); cbn [find andb];
      destruct (atAddress a x); trivial. }
  rewrite Hfill, IH. clear Hfill IH. fold F E1 E2.
  clearbody F E1 E2. unfold atAddress.
  destruct (Z.eqb_spec (address x) a) as [Hxa|Hxa]; [reflexivity|].
  destruct F as [z|];
    [specialize (HF z eq_refl); clear HF'
    | specialize (HF' eq_refl); clear HF];
    (destruct E1; [specialize (H1 eq_refl); clear H1'
                  | specialize (H1' eq_refl); clear H1]);
    (destruct E2; [specialize (H2 eq_refl); clear H2'
                  | specialize (H2' eq_refl); clear H2]);
    destruct (Z.eqb_spec (address y) (address x + 2)) as [Hgap|Hgap];
    destruct (Z.eqb_spec (address x + 1) a) as [Hpt|Hpt];
    destruct (Z.eqb_spec (address x) (a - 1)) as [Hm|Hm];
    destruct (Z.eqb_spec (address x) (a + 1)) as [Hp|Hp];
    cbn [andb orb]; try reflexivity; try lia;
    try (unfold passThrough; do 2 f_equal; lia).
Qed.

Lemma served_existsb (deliveries : Deliveries) (a : Z) :
  served deliveries a <->
  existsb (atAddress a) (parcelSteps deliveries) = true.
Proof.
  unfold served. rewrite existsb_exists, in_map_iff.
  split; intros (s & H1 & H2); exists s.
  - split; [exact H2 | now apply Z.eqb_eq].
  - split; [now apply Z.eqb_eq | exact H1].
Qed.

Lemma find_fullSteps (deliveries : Deliveries) (a : Z) :
  find (atAddress a) (fillGaps (sortByAddress (parcelSteps deliveries))) =
  match find (atAddress a) (parcelSteps deliveries) with
  | Some x => Some x
  | None =>
      if existsb (atAddress (a - 1)) (parcelSteps deliveries)
         && existsb (atAddress (a + 1)) (parcelSteps deliveries)
      then Some {| address := a; action := None |}
      else None
  end.
Proof.
  rewrite find_fillGaps.
  - now rewrite !find_hd_filter, !existsb_filter, !sortByAddress_stable.
  - apply Sorted_StronglySorted; [|apply sortByAddress_sorted].
    intros x y z; unfold address_le; lia.
Qed.

(** X11. On feasible parcels, their addresses in the safe range, the entry of the outcome for the path address
    [a = truckPath[i]] is: the first step of the parcels at [a], in input
    order and pickup before dropoff, when some parcel is picked up or dropped
    off at [a] (later steps at [a] are not listed); else the step without
    action at [a], when parcels are served at [a - 1] and at [a + 1]; else
    absent. *)
Theorem generateTruckSteps_entry
  (deliveries : Deliveries) (truckPath : TruckPath) :
  Forall safeParcel deliveries ->
  Forall (feasible truckPath) deliveries ->
  exists steps : list (option Step),
    generateTruckSteps deliveries truckPath = Normal (success steps) /\
    forall (i : nat) (a : Z) (entry : option Step),
      nth_error steps i = Some entry ->
      nth_error truckPath i = Some a ->
      (forall s, find (atAddress a) (parcelSteps deliveries) = Some s ->
                 entry = Some s) /\
      (~ served deliveries a ->
       served deliveries (a - 1) /\ served deliveries (a + 1) ->
       entry = Some {| address := a; action := None |}) /\
      (~ served deliveries a ->
       ~ (served deliveries (a - 1) /\ served deliveries (a + 1)) ->
       entry = None).
Proof.
  intros _ Hall. eexists. split; [now apply generateTruckSteps_success|].
  intros i a entry Hentry Ha.
  assert (Hi : (i < List.length
                  (fillGaps (sortByAddress (flat_map stepPair deliveries))))%nat).
  { rewrite <- (reorder_length _ truckPath). apply nth_error_Some. congruence. }
  rewrite (reorder_nth _ _ _ Hi), Ha in Hentry. injection Hentry as <-.
  change (addressIs (Some a)) with (atAddress a).
  change (flat_map stepPair deliveries) with (parcelSteps deliveries).
  rewrite find_fullSteps.
  assert (Hnone : ~ served deliveries a ->
                  find (atAddress a) (parcelSteps deliveries) = None).
  { intros Hns. destruct (find _ _) as [s|] eqn:F; trivial.
    elim Hns. apply find_some in F. destruct F as [Hin Hs].
    apply Z.eqb_eq in Hs. unfold served. rewrite <- Hs. now apply in_map. }
  split; [|split].
  - now intros s ->.
  - intros Hns [Hm Hp]. rewrite (Hnone Hns).
    apply served_existsb in Hm, Hp. now rewrite Hm, Hp.
  - intros Hns Hnot. rewrite (Hnone Hns).
    destruct (existsb (atAddress (a - 1)) _) eqn:E1;
      destruct (existsb (atAddress (a + 1)) _) eqn:E2; trivial.
    elim Hnot. now split; apply served_existsb.
Qed.

Lemma generateTruckSteps_entry_witness :
  exists steps : list (option Step),
    generateTruckSteps
      [ {| pickupAddress := 1; dropoffAddress := 3 |};
        {| pickupAddress := 1; dropoffAddress := 4 |} ] [1; 2; 3; 4]
    = Normal (success steps) /\
    nth_error steps 0 = Some (Some {| address := 1; action := Some pickup |}) /\
    nth_error steps 1 = Some (Some {| address := 2; action := None |}).
Proof.
  pose (deliveries := [ {| pickupAddress := 1; dropoffAddress := 3 |};
                        {| pickupAddress := 1; dropoffAddress := 4 |} ]).
  pose (truckPath := [1; 2; 3; 4]).
  assert (Hall : Forall (feasible truckPath) deliveries)
    by (repeat constructor).
  assert (Hsafe : Forall safeParcel deliveries) by safe_range.
  destruct (generateTruckSteps_entry deliveries truckPath Hsafe Hall)
    as (steps & Hrun & _).
  exists steps. split; [exact Hrun|].
  assert (E : Normal (success steps) =
              generateTruckSteps deliveries truckPath)
    by (now rewrite Hrun).
  vm_compute in E. injection E as ->. split; reflexivity.
Defined.

(** ** The path that visits every step once *)

Lemma mapi_from_seq {A B : Type} (g : nat -> B) (l : list A) :
  forall k, mapi_from (fun _ i => g i) l k = map g (seq k (List.length l)).
Proof.
  induction l as [|x r IH]; intros k; simpl; [reflexivity|].
  now rewrite IH.
Qed.

Lemma map_nth_error_seq {A B : Type} (h : option A -> B) (p : list A) :
  map (fun i => h (nth_error p i)) (seq 0 (List.length p)) =
  map (fun a => h (Some a)) p.
Proof.
  induction p as [|a r IH]; [reflexivity|].
  cbn [List.length seq map nth_error]. f_equal.
  rewrite <- seq_shift, map_map. exact IH.
Qed.

Lemma reorder_full_path (fullSteps : list Step) (truckPath : TruckPath) :
  List.length truckPath = List.length fullSteps ->
  reorder fullSteps truckPath =
  map (fun a => find (atAddress a) fullSteps) truckPath.
Proof.
  intros Hlen. unfold reorder, mapi.
  rewrite (mapi_from_seq
             (fun i => find (addressIs (nth_error truckPath i)) fullSteps)).
  rewrite <- Hlen.
  exact (map_nth_error_seq (fun t => find (addressIs t) fullSteps) truckPath).
Qed.

Lemma find_each (fullSteps : list Step) (path : list Z) :
  incl path (map address fullSteps) ->
  exists out,
    map (fun a => find (atAddress a) fullSteps) path = map Some out /\
    map address out = path /\
    incl out fullSteps.
Proof.
  induction path as [|a r IH]; intros Hincl.
  - exists []. split; [reflexivity | split; [reflexivity | intros x []]].
  - destruct IH as (out & Hmap & Haddr & Hin).
    { intros x Hx. apply Hincl. now right. }
    assert (Ha : In a (map address fullSteps)) by (apply Hincl; now left).
    apply in_map_iff in Ha. destruct Ha as (s & Hs & Hsin).
    destruct (find (atAddress a) fullSteps) as [s'|] eqn:F.
    + destruct (find_some _ _ F) as [Hin' Ha'].
      apply Z.eqb_eq in Ha'.
      exists (s' :: out). cbn [map]. rewrite F, Hmap, Haddr, Ha'.
      split; [reflexivity | split; [reflexivity|]].
      intros x [<-|Hx]; [exact Hin' | now apply Hin].
    + apply (find_none _ _ F) in Hsin. apply Z.eqb_neq in Hsin. contradiction.
Qed.

(** X12. On feasible parcels, their addresses in the safe range: when the
    gap-filled steps have pairwise distinct addresses and the
    truck path lists exactly those addresses, in any order, the outcome has no
    absent entry: it is the gap-filled steps rearranged in the order of the
    path, each step at the index of its address. *)
Theorem generateTruckSteps_follows_path
  (deliveries : Deliveries) (truckPath : TruckPath) :
  Forall safeParcel deliveries ->
  Forall (feasible truckPath) deliveries ->
  NoDup (map address
           (fillGaps (sortByAddress (parcelSteps deliveries)))) ->
  Permutation truckPath
    (map address (fillGaps (sortByAddress (parcelSteps deliveries)))) ->
  exists out : list Step,
    generateTruckSteps deliveries truckPath =
    Normal (success (map Some out)) /\
    map address out = truckPath /\
    Permutation out (fillGaps (sortByAddress (parcelSteps deliveries))).
Proof.
  intros _ Hall Hnd Hperm.
  set (fullSteps := fillGaps (sortByAddress (parcelSteps deliveries))) in *.
  assert (Hlen : List.length truckPath = List.length fullSteps).
  { rewrite (Permutation_length Hperm). apply length_map. }
  destruct (find_each fullSteps truckPath) as (out & Hmap & Haddr & Hincl).
  { intros x Hx. eapply Permutation_in; eassumption. }
  exists out. split; [|split; [exact Haddr|]].
  - rewrite (generateTruckSteps_success _ _ Hall).
    fold (parcelSteps deliveries). fold fullSteps.
    now rewrite (reorder_full_path _ _ Hlen), Hmap.
  - apply NoDup_Permutation_bis; trivial.
    + apply (NoDup_map_inv address). rewrite Haddr.
      eapply Permutation_NoDup; [symmetry; exact Hperm | exact Hnd].
    + rewrite <- Hlen, <- Haddr, length_map. lia.
Qed.

Lemma generateTruckSteps_follows_path_witness :
  exists out : list Step,
    generateTruckSteps
      [ {| pickupAddress := 3; dropoffAddress := 1 |};
        {| pickupAddress := 5; dropoffAddress := 2 |} ] [5; 4; 3; 2; 1]
    = Normal (success (map Some out)) /\
    map address out = [5; 4; 3; 2; 1] /\
    Permutation out
      (fillGaps (sortByAddress (parcelSteps
         [ {| pickupAddress := 3; dropoffAddress := 1 |};
           {| pickupAddress := 5; dropoffAddress := 2 |} ]))).
Proof.
  apply generateTruckSteps_follows_path.
  - safe_range.
  - repeat constructor.
  - vm_compute. repeat constructor; cbn; intuition discriminate.
  - vm_compute.
    exact (Permutation_sym (Permutation_rev [1; 2; 3; 4; 5])).
Defined.

(** * Further properties of the entry point *)

Lemma isParcel_rawOf (parcel : Parcel) : isParcel (rawOf parcel) = true.
Proof. reflexivity. Qed.

Lemma asParcel_rawOf (parcel : Parcel) : asParcel (rawOf parcel) = parcel.
Proof. now destruct parcel. Qed.

Lemma isParcel_inv (raw : Raw.Parcel) :
  isParcel raw = true -> raw = rawOf (asParcel raw).
Proof.
  destruct raw as [[[]|] [[]|]]; cbn; intros H; try discriminate H;
    reflexivity.
Qed.

Lemma forallb_isParcel (raws : list Raw.Parcel) :
  forallb isParcel raws = true <->
  exists deliveries, raws = map rawOf deliveries.
Proof.
  split.
  - intros H. exists (map asParcel raws).
    induction raws as [|r rs IH]; [reflexivity|].
    cbn [forallb] in H. apply andb_prop in H. destruct H as [Hr Hrs].
    cbn [map]. now rewrite <- (isParcel_inv r Hr), <- (IH Hrs).
  - intros [ds ->]. induction ds as [|d r IH]; [reflexivity|].
    cbn [map forallb]. now rewrite isParcel_rawOf, IH.
Qed.

Lemma mapM_tuples (deliveries : Deliveries) :
  mapM ParcelFromTuple (map TupleFromParcel deliveries) =
  Normal (map rawOf deliveries).
Proof.
  induction deliveries as [|p r IH]; [reflexivity|].
  cbn [map mapM]. rewrite IH. reflexivity.
Qed.

Lemma isTruckPath_pathToJSON (truckPath : TruckPath) :
  isTruckPath (pathToJSON truckPath) = true.
Proof.
  unfold pathToJSON, isTruckPath.
  induction truckPath as [|a r IH]; [reflexivity | exact IH].
Qed.

Lemma asTruckPath_pathToJSON (truckPath : TruckPath) :
  asTruckPath (pathToJSON truckPath) = truckPath.
Proof.
  unfold pathToJSON, asTruckPath. rewrite map_map. apply map_id.
Qed.

(** X13. [ParcelFromTuple] undoes [TupleFromParcel], and the parcel it gives
    passes [isParcel]; [TupleFromParcel] gives back the first two elements of
    a tuple of numbers, the elements after them being dropped. *)
Theorem ParcelFromTuple_TupleFromParcel :
  (forall parcel : Parcel,
      exists raw, ParcelFromTuple (TupleFromParcel parcel) = Normal raw /\
                  isParcel raw = true /\ asParcel raw = parcel) /\
  (forall (p d : Z) (rest : list JSON),
      exists raw,
        ParcelFromTuple (JArray (JNumber p :: JNumber d :: rest)) =
        Normal raw /\
        isParcel raw = true /\
        TupleFromParcel (asParcel raw) = JArray [JNumber p; JNumber d]).
Proof.
  split.
  - intros parcel. exists (rawOf parcel).
    split; [reflexivity | split; [reflexivity | apply asParcel_rawOf]].
  - intros p d rest. eexists. repeat split.
Qed.

Lemma truckPath_guard (j : JSON) :
  isTruckPath j = true <-> exists truckPath, j = pathToJSON truckPath.
Proof.
  split.
  - destruct j as [| | | |elements|]; cbn; try discriminate.
    intros H. exists (map (fun a => asNumber (Some a)) elements).
    unfold pathToJSON. f_equal.
    induction elements as [|x r IH]; [reflexivity|].
    cbn [forallb] in H. apply andb_prop in H. destruct H as [Hx Hr].
    cbn [map]. rewrite <- (IH Hr). f_equal.
    destruct x; cbn in Hx; try discriminate Hx. reflexivity.
  - intros [t ->]. apply isTruckPath_pathToJSON.
Qed.

Lemma parcel_guard_true (v : JSON) :
  Guards.isParcel v = Normal true <->
  exists members p d,
    v = JObject members /\
    Guards.member members "pickupAddress" = Some (JNumber p) /\
    Guards.member members "dropoffAddress" = Some (JNumber d).
Proof.
  split.
  - destruct v as [| | | | |members]; cbn; try discriminate.
    unfold Guards.isParcel. cbn [Guards.getMember bind].
    destruct (Guards.member members "pickupAddress") as [[| |p| | |]|] eqn:Ep;
      cbn; try discriminate;
      destruct (Guards.member members "dropoffAddress") as [[| |d| | |]|]
        eqn:Ed; cbn; try discriminate.
    intros _. now exists members, p, d.
  - intros (members & p & d & -> & Hp & Hd).
    unfold Guards.isParcel. cbn [Guards.getMember bind].
    now rewrite Hp, Hd.
Qed.

Lemma parcel_guard_throws (v : JSON) (e : Exception) :
  Guards.isParcel v = Throw e <-> v = JNull /\ e = TypeError.
Proof.
  split.
  - destruct v as [| | | | |members]; cbn; try discriminate.
    + now intros [= <-].
    + unfold Guards.isParcel. cbn [Guards.getMember bind].
      destruct (Guards.member members "pickupAddress") as [x|]; cbn;
        [|discriminate].
      destruct (Guards.member members "dropoffAddress") as [y|]; cbn;
        discriminate.
  - now intros [-> ->].
Qed.

Lemma every_true (f : JSON -> Completion bool) (l : list JSON) :
  Guards.every f l = Normal true <-> Forall (fun x => f x = Normal true) l.
Proof.
  induction l as [|x r IH]; cbn [Guards.every].
  - split; [constructor | reflexivity].
  - destruct (f x) as [[|]|e] eqn:Hx; cbn [bind].
    + rewrite IH. split; [now constructor | now inversion 1].
    + split; [discriminate|]. inversion 1; congruence.
    + split; [discriminate|]. inversion 1; congruence.
Qed.

Lemma every_throws (l : list JSON) (e : Exception) :
  Guards.every Guards.isParcel l = Throw e <->
  e = TypeError /\
  exists before after,
    l = before ++ JNull :: after /\
    Forall (fun x => Guards.isParcel x = Normal true) before.
Proof.
  induction l as [|x r IH]; cbn [Guards.every].
  - split; [discriminate|].
    intros (_ & [|y b] & a & H & _); discriminate H.
  - destruct (Guards.isParcel x) as [[|]|e'] eqn:Hx; cbn [bind].
    + rewrite IH. split.
      * intros (-> & b & a & -> & Hb). split; [reflexivity|].
        exists (x :: b), a. split; [reflexivity | now constructor].
      * intros (-> & [|y b] & a & H & Hb); injection H as -> ->.
        -- cbn in Hx. discriminate Hx.
        -- split; [reflexivity|]. exists b, a.
           split; [reflexivity | now inversion Hb].
    + split; [discriminate|].
      intros (_ & [|y b] & a & H & Hb); injection H as -> ->.
      * cbn in Hx. discriminate Hx.
      * inversion Hb; congruence.
    + apply parcel_guard_throws in Hx. destruct Hx as [-> ->]. split.
      * intros [= <-]. split; [reflexivity|]. now exists [], r.
      * now intros [-> _].
Qed.

Lemma parcel_guard_objectOf (raw : Raw.Parcel) :
  Guards.isParcel (Guards.objectOf raw) = Normal (isParcel raw).
Proof. destruct raw as [[p|] [d|]]; reflexivity. Qed.

Lemma every_objectOf (raws : list Raw.Parcel) :
  Guards.every Guards.isParcel (map Guards.objectOf raws) =
  Normal (forallb isParcel raws).
Proof.
  induction raws as [|x r IH]; [reflexivity|].
  cbn [map Guards.every forallb]. rewrite parcel_guard_objectOf, IH.
  cbn [bind]. now destruct (isParcel x).
Qed.

Lemma deliveries_guard_not_array (v : JSON) :
  Guards.isArray v = false -> v <> JNull ->
  Guards.isDeliveries v = Normal false.
Proof.
  intros Harr Hnull. unfold Guards.isDeliveries.
  destruct v as [| | |s|elements|members];
    try discriminate Harr; try contradiction;
    cbn [Guards.getMember bind Guards.isArray negb];
    try reflexivity;
    match goal with
    | |- context [Guards.isNotZero ?x] => destruct (Guards.isNotZero x)
    end; reflexivity.
Qed.

Lemma deliveries_guard_array (x : JSON) (r : list JSON) :
  Guards.isDeliveries (JArray (x :: r)) =
  Guards.every Guards.isParcel (x :: r).
Proof. reflexivity. Qed.

(** The guards on the values of the test suite. *)
Module GuardTests.

Example parcel_ok :
  Guards.isParcel (JObject [("pickupAddress"%string, JNumber 1);
                            ("dropoffAddress"%string, JNumber 2)])
  = Normal true.
Proof. reflexivity. Qed.

Example parcel_missing_pickup :
  Guards.isParcel (JObject [("dropoffAddress"%string, JNumber 2)])
  = Normal false.
Proof. reflexivity. Qed.

Example parcel_string_dropoff :
  Guards.isParcel (JObject [("pickupAddress"%string, JNumber 1);
                            ("dropoffAddress"%string, JString "2")])
  = Normal false.
Proof. reflexivity. Qed.

Example deliveries_ok :
  Guards.isDeliveries
    (JArray [JObject [("pickupAddress"%string, JNumber 1);
                      ("dropoffAddress"%string, JNumber 2)]])
  = Normal true.
Proof. reflexivity. Qed.

Example deliveries_empty_array : Guards.isDeliveries (JArray []) = Normal false.
Proof. reflexivity. Qed.

Example deliveries_of_non_parcels :
  Guards.isDeliveries (JArray [JObject [("pickupAddress"%string, JNumber 1)]])
  = Normal false.
Proof. reflexivity. Qed.

Example deliveries_not_an_array :
  Guards.isDeliveries (JObject [("pickupAddress"%string, JNumber 1)])
  = Normal false.
Proof. reflexivity. Qed.

Example truckPath_not_an_array : isTruckPath (JNumber 1) = false.
Proof. reflexivity. Qed.

End GuardTests.

(** X14. The guards, on any decoded value.  [isParcel] answers true exactly
    on an object whose members [pickupAddress] and [dropoffAddress] are
    numbers, and throws exactly on [null].  [isDeliveries] answers true
    exactly on a non-empty array of such objects, and throws exactly on
    [null] and on a non-empty array in which a [null] comes before any
    element it refuses.  [isTruckPath] answers true exactly on an array of
    numbers, the empty one included.  On the parcels that [main] builds they
    are the guards of the entry point. *)
Theorem guards_on_any_value :
  (forall v : JSON,
      Guards.isParcel v = Normal true <->
      exists members p d,
        v = JObject members /\
        Guards.member members "pickupAddress" = Some (JNumber p) /\
        Guards.member members "dropoffAddress" = Some (JNumber d)) /\
  (forall (v : JSON) (e : Exception),
      Guards.isParcel v = Throw e <-> v = JNull /\ e = TypeError) /\
  (forall v : JSON,
      Guards.isDeliveries v = Normal true <->
      exists elements,
        v = JArray elements /\ elements <> [] /\
        Forall (fun x => Guards.isParcel x = Normal true) elements) /\
  (forall (v : JSON) (e : Exception),
      Guards.isDeliveries v = Throw e <->
      e = TypeError /\
      (v = JNull \/
       exists before after,
         v = JArray (before ++ JNull :: after) /\
         Forall (fun x => Guards.isParcel x = Normal true) before)) /\
  (forall j : JSON,
      isTruckPath j = true <-> exists truckPath, j = pathToJSON truckPath) /\
  (forall raw : Raw.Parcel,
      Guards.isParcel (Guards.objectOf raw) = Normal (isParcel raw)) /\
  (forall raws : list Raw.Parcel,
      Guards.isDeliveries (JArray (map Guards.objectOf raws)) =
      Normal (isDeliveries raws)).
Proof.
  split; [exact parcel_guard_true|].
  split; [exact parcel_guard_throws|].
  split; [|split; [|split; [exact truckPath_guard|split]]].
  - intros v. split.
    + intros H. destruct v as [| | |s|elements|members];
        try (rewrite deliveries_guard_not_array in H;
             [discriminate H | reflexivity | intros E; discriminate E]);
        [cbn in H; discriminate H|].
      destruct elements as [|x r]; [cbn in H; discriminate H|].
      rewrite deliveries_guard_array in H.
      exists (x :: r). split; [reflexivity | split; [discriminate|]].
      now apply every_true.
    + intros (elements & -> & Hne & Hall).
      destruct elements as [|x r]; [contradiction|].
      rewrite deliveries_guard_array. now apply every_true.
  - intros v e. split.
    + intros H. destruct v as [| | |s|elements|members];
        try (rewrite deliveries_guard_not_array in H;
             [discriminate H | reflexivity | intros E; discriminate E]).
      * cbn in H. injection H as <-. split; [reflexivity | now left].
      * destruct elements as [|x r]; [cbn in H; discriminate H|].
        rewrite deliveries_guard_array in H.
        apply every_throws in H.
        destruct H as (-> & b & a & Hsplit & Hb).
        split; [reflexivity|]. right. exists b, a. now rewrite Hsplit.
    + intros [-> [->|(b & a & -> & Hb)]]; [reflexivity|].
      assert (H : Guards.every Guards.isParcel (b ++ JNull :: a) =
                  Throw TypeError).
      { apply every_throws. split; [reflexivity|]. now exists b, a. }
      destruct b as [|y b']; exact H.
  - exact parcel_guard_objectOf.
  - intros raws. destruct raws as [|x r]; [reflexivity|].
    change (map Guards.objectOf (x :: r))
      with (Guards.objectOf x :: map Guards.objectOf r).
    rewrite deliveries_guard_array.
    exact (every_objectOf (x :: r)).
Qed.

(** X15. On a non-empty list of parcels and a truck path, given as well-formed
    JSON, [main] logs the outcome of [generateTruckSteps] on them and returns
    0, also when that outcome is an error. *)
Theorem main_logs_outcome
  (deliveries : Deliveries) (truckPath : TruckPath) (s1 s2 : string) :
  deliveries <> [] -> s1 <> ""%string -> s2 <> ""%string ->
  exists out : Output,
    generateTruckSteps deliveries truckPath = Normal out /\
    main (Some (wellFormed s1 (deliveriesToJSON deliveries)))
         (Some (wellFormed s2 (pathToJSON truckPath)))
    = ([LogOutput out], Normal 0).
Proof.
  intros Hne H1 H2.
  destruct (generateTruckSteps_total truckPath deliveries) as [out Hout].
  exists out. split; [exact Hout|].
  unfold main. cbn [isFalsy wellFormed text JSON_parse parsed].
  apply String.eqb_neq in H1, H2. rewrite H1, H2. cbn [orb].
  unfold deliveriesToJSON.
  destruct deliveries as [|p r]; [contradiction|].
  change (map TupleFromParcel (p :: r))
    with (TupleFromParcel p :: map TupleFromParcel r) at 1.
  cbv iota beta.
  change (TupleFromParcel p :: map TupleFromParcel r)
    with (map TupleFromParcel (p :: r)).
  rewrite mapM_tuples.
  assert (Hd : isDeliveries (map rawOf (p :: r)) = true).
  { unfold isDeliveries. cbn [map List.length Nat.eqb negb andb].
    apply (proj2 (forallb_isParcel (rawOf p :: map rawOf r))).
    now exists (p :: r). }
  rewrite Hd, isTruckPath_pathToJSON. cbn [negb].
  rewrite map_map, asTruckPath_pathToJSON.
  rewrite (map_ext _ (fun x => x) asParcel_rawOf), map_id.
  now rewrite Hout.
Qed.

Lemma main_logs_outcome_witness :
  exists out : Output,
    generateTruckSteps [ {| pickupAddress := 1; dropoffAddress := 2 |} ] [2]
    = Normal out /\
    main (Some (wellFormed "[[1, 2]]"
                  (JArray [JArray [JNumber 1; JNumber 2]])))
         (Some (wellFormed "[2]" (JArray [JNumber 2])))
    = ([LogOutput out], Normal 0).
Proof.
  apply (main_logs_outcome
           [ {| pickupAddress := 1; dropoffAddress := 2 |} ] [2]
           "[[1, 2]]" "[2]"); discriminate.
Defined.

(** X16. [main] returns only the codes 0, 1, 2 and 4, and logs exactly one
    line before it returns: the usage with 1, "Invalid deliveries" with 2,
    "Invalid truckPath" with 4, an outcome with 0.  When an exception leaves
    [main], nothing has been logged. *)
Theorem main_codes_and_logs (argv2 argv3 : option Argument) :
  match main argv2 argv3 with
  | (logs, Normal code) =>
      (code = 1 /\
       logs = [LogText
                 "Usage: node deliverychecker.js <deliveries> <truckPath>"])
      \/ (code = 2 /\ logs = [LogText "Invalid deliveries"])
      \/ (code = 4 /\ logs = [LogText "Invalid truckPath"])
      \/ (code = 0 /\ exists out, logs = [LogOutput out])
  | (logs, Throw _) => logs = []
  end.
Proof.
  unfold main; cbn zeta.
  destruct (isFalsy argv2 || isFalsy argv3); [now left|].
  destruct (JSON_parse argv2) as [[| | | |[|x r]|]|e]; try tauto.
  destruct (mapM ParcelFromTuple (x :: r)) as [ds|e]; [|reflexivity].
  destruct (JSON_parse argv3) as [tp|e]; [|reflexivity].
  destruct (isDeliveries ds); cbn [negb]; [|tauto].
  destruct (isTruckPath tp); cbn [negb]; [|tauto].
  destruct (generateTruckSteps _ _) as [out|e]; [|reflexivity].
  right. right. right. split; [reflexivity | now exists out].
Qed.

(** X17. A [null] among the tuples makes [main] throw a [TypeError], whatever
    the other tuples and the second argument are: the tuples are mapped before
    the second argument is decoded, and [ParcelFromTuple] reads [tuple[0]]. *)
Theorem main_null_tuple
  (argv2 argv3 : option Argument) (elements : list JSON) :
  isFalsy argv2 || isFalsy argv3 = false ->
  JSON_parse argv2 = Normal (JArray elements) ->
  In JNull elements ->
  main argv2 argv3 = ([], Throw TypeError).
Proof.
  intros Hargs Hparse Hnull. unfold main; cbn zeta.
  rewrite Hargs, Hparse.
  destruct elements as [|x r]; [destruct Hnull|].
  now rewrite (proj2 (mapM_ParcelFromTuple (x :: r)) Hnull).
Qed.

Lemma main_null_tuple_witness :
  main (Some (wellFormed "[[1, 2], null]"
                (JArray [JArray [JNumber 1; JNumber 2]; JNull])))
       (Some (malformed "[1, 2"))
  = ([], Throw TypeError).
Proof.
  apply (main_null_tuple _ _ [JArray [JNumber 1; JNumber 2]; JNull]).
  - reflexivity.
  - reflexivity.
  - right. now left.
Defined.
